(** * Flash'n'Chips ESP8266 flasher: a shallow embedding of
      [src/flashnchips/esp8266.cc] and the properties of its protocol code.

    Conventions of the embedding.
    - A [char]/[quint8] is a [byte] (Stdlib's 256-constructor type), so a C
      [switch] on a byte is a [match] on its constructors.  [char] is signed,
      as on the x86 desktop targets of this Qt application (the source itself
      relies on it when it compares with [(char) 0xE9]); [char_to_int] is the
      integer promotion of a [char], [uchar_to_int] that of a [quint8].
    - [int]/[qint32] and [ulong] are [Z]; where the source can wrap, the
      wrap-around is written out.
    - The serial port is an oracle: the list [w_rx] of what every future read
      attempt finds (a byte, or nothing), together with the trace [w_trace] of
      everything the program did to the outside (bytes put on the wire, modem
      lines, sleeps, emitted signals).  Code that talks to the port is written
      in a small state monad over this world. *)

From Stdlib Require Import ZArith List Lia Bool String Ascii.
From Stdlib Require Import Strings.Byte.
From stdpp Require Import gmap strings sorting.
Import ListNotations.

Local Open Scope Z_scope.

(** ** Bytes and fixed-width integers *)

#[global] Instance byte_eq_decision : EqDecision byte := Byte.byte_eq_dec.

(** Integer promotion of a [quint8] / [(unsigned char)]. *)
Definition uchar_to_int (c : byte) : Z := Z.of_N (Byte.to_N c).

(** Integer promotion of a (signed) [char]. *)
Definition char_to_int (c : byte) : Z :=
  let n := uchar_to_int c in if n <? 128 then n else n - 256.

(** Conversion of an integer to [char]/[quint8]: the low eight bits. *)
Definition int_to_char (z : Z) : byte :=
  match Byte.of_N (Z.to_N (z mod 256)) with
  | Some c => c
  | None => x00
  end.

(** [QDataStream] in [LittleEndian] order: [s << quint16(z)], [s << quint32(z)]. *)
Definition le16 (z : Z) : list byte :=
  [int_to_char z; int_to_char (Z.shiftr z 8)].

Definition le32 (z : Z) : list byte :=
  [int_to_char z; int_to_char (Z.shiftr z 8);
   int_to_char (Z.shiftr z 16); int_to_char (Z.shiftr z 24)].

(** [QDataStream]'s default order is big-endian: [s << qint16(z)]. *)
Definition be16 (z : Z) : list byte :=
  [int_to_char (Z.shiftr z 8); int_to_char z].

(** ** The world: serial port oracle and trace *)

(** What a read attempt finds: a byte, or nothing (no data within the read
    timeout, or a failed [getChar]; the source returns what it has in both
    cases). *)
Inductive rx_item : Type :=
| RxByte (c : byte)
| RxNone.

(** Messages of the [done] signal. *)
Inductive done_msg : Type :=
| FailedToTalkToBootloader
| FailedToReadFlashParams
| FailedToCheckForId
| FailedToFlashImageAt (addr : Z)
| FailedToLeaveFlashingMode
| AllDone.

(** Messages of the [statusMessage] signal. *)
Inductive status_msg : Type :=
| ErasingFlashAt (addr : Z)
| WritingBlock (seq addr : Z).

Inductive event : Type :=
| PutChar (c : byte)
| SetDataTerminalReady (on : bool)
| SetRequestToSend (on : bool)
| Msleep (ms : Z)
| EmitProgress (n : Z)
| EmitStatusMessage (m : status_msg)
| EmitDone (m : done_msg) (ok : bool).

Record World : Type := mkWorld {
  w_rx : list rx_item;
  w_trace : list event
}.

(** ** SLIP codec *)

Module SLIP.

Definition FrameDelimiter : byte := xc0.
Definition Escape : byte := xdb.
Definition EscapeFrameDelimiter : byte := xdc.
Definition EscapeEscape : byte := xdd.

(** The body of the [for] loop of [SLIP_write]: what is put on the wire for
    one byte. *)
Definition stuff (c : byte) : list byte :=
  match c with
  | xc0 => [Escape; EscapeFrameDelimiter]
  | xdb => [Escape; EscapeEscape]
  | _ => [c]
  end.

(** Everything [SLIP_write] puts on the wire for [bytes]. *)
Definition encode (bytes : list byte) : list byte :=
  FrameDelimiter :: flat_map stuff bytes ++ [FrameDelimiter].

(** [SLIP_write]: errors are ignored by the source, and the return value is
    the length of the unencoded input. *)
Definition write (bytes : list byte) (w : World) : Z * World :=
  (Z.of_nat (length bytes),
   mkWorld (w_rx w) (w_trace w ++ map PutChar (encode bytes))).

(** The [do ... while] loop of [SLIP_read]: skip everything before the frame
    start.  [false] when the source returns (the empty [ret]) from inside the
    loop; with it, what is left of the oracle. *)
Fixpoint skip_prefix (rx : list rx_item) : bool * list rx_item :=
  match rx with
  | [] => (false, [])
  | RxNone :: rx' => (false, rx')
  | RxByte c :: rx' =>
      match c with
      | xc0 => (true, rx')
      | _ => skip_prefix rx'
      end
  end.

(** The [for (;;)] loop of [SLIP_read], with [ret] as accumulated so far. *)
Fixpoint read_frame (ret : list byte) (rx : list rx_item) : list byte * list rx_item :=
  match rx with
  | [] => (ret, [])
  | RxNone :: rx' => (ret, rx')
  | RxByte c :: rx' =>
      match c with
      | xc0 => (ret, rx')
      | xdb =>
          match rx' with
          | [] => (ret, [])
          | RxNone :: rx'' => (ret, rx'')
          | RxByte c' :: rx'' =>
              match c' with
              | xdc => read_frame (ret ++ [FrameDelimiter]) rx''
              | xdd => read_frame (ret ++ [Escape]) rx''
              | _ => (ret, rx'')
              end
          end
      | _ => read_frame (ret ++ [c]) rx'
      end
  end.

(** [SLIP_read] on the oracle: the frame read and what is left of the oracle. *)
Definition decode (rx : list rx_item) : list byte * list rx_item :=
  match skip_prefix rx with
  | (false, rx') => ([], rx')
  | (true, rx') => read_frame [] rx'
  end.

Definition read (readTimeout : Z) (w : World) : list byte * World :=
  let '(ret, rx') := decode (w_rx w) in
  (ret, mkWorld rx' (w_trace w)).

End SLIP.

(** ** Qt library functions used by the flasher

    These are not code of the repository; they are modelled here so that the
    embedding computes.  A [QString] is modelled by the [string] of its UTF-8
    bytes, a [QByteArray] by a [list byte]. *)

Module Qt.

Local Open Scope string_scope.
Local Open Scope Z_scope.

(** [QString::toUtf8] and [QString::fromUtf8]. *)
Definition toUtf8 (s : string) : list byte := list_byte_of_string s.
Definition fromUtf8 (b : list byte) : string := string_of_list_byte b.

(** [QByteArray::mid(pos, len)] and [QByteArray::mid(pos)]. *)
Definition mid {A} (pos len : nat) (l : list A) : list A := firstn len (skipn pos l).
Definition mid_from {A} (pos : nat) (l : list A) : list A := skipn pos l.

(** [QByteArray::repeated(times)]: empty when [times < 1]. *)
Definition repeated (b : list byte) (times : Z) : list byte :=
  concat (repeat b (Z.to_nat times)).

(** [QByteArray::indexOf(c, from)]: [-1] when [c] does not occur at or after
    [from]. *)
Fixpoint index_from (c : byte) (pos : Z) (l : list byte) : Z :=
  match l with
  | [] => -1
  | x :: l' => if Byte.eqb x c then pos else index_from c (pos + 1) l'
  end.

Definition indexOf (c : byte) (from : nat) (l : list byte) : Z :=
  index_from c (Z.of_nat from) (skipn from l).

(** *** [QCryptographicHash::hash(data, QCryptographicHash::Sha1)] (FIPS 180-4) *)

Definition wrap32 (z : Z) : Z := z mod 2 ^ 32.

Definition rotl32 (n x : Z) : Z :=
  wrap32 (Z.lor (Z.shiftl x n) (Z.shiftr x (32 - n))).

Definition be32 (z : Z) : list byte :=
  [int_to_char (Z.shiftr z 24); int_to_char (Z.shiftr z 16);
   int_to_char (Z.shiftr z 8); int_to_char z].

Fixpoint be32_words (bs : list byte) : list Z :=
  match bs with
  | a :: b :: c :: d :: rest =>
      Z.lor (Z.shiftl (uchar_to_int a) 24)
        (Z.lor (Z.shiftl (uchar_to_int b) 16)
           (Z.lor (Z.shiftl (uchar_to_int c) 8) (uchar_to_int d)))
      :: be32_words rest
  | _ => []
  end.

Definition sha1_pad (msg : list byte) : list byte :=
  let len := Z.of_nat (length msg) in
  msg ++ [x80] ++ repeat x00 (Z.to_nat ((55 - len) mod 64))
      ++ be32 (Z.shiftr (8 * len) 32) ++ be32 (8 * len).

(** Message schedule, most recent word first: [w] holds [W(t-1) .. W(0)]. *)
Fixpoint sha1_schedule (n : nat) (w : list Z) : list Z :=
  match n with
  | O => w
  | S n' =>
      let x := Z.lxor (Z.lxor (nth 2 w 0) (nth 7 w 0))
                      (Z.lxor (nth 13 w 0) (nth 15 w 0)) in
      sha1_schedule n' (rotl32 1 x :: w)
  end.

Definition sha1_state : Type := Z * Z * Z * Z * Z.

Definition sha1_round (st : sha1_state) (tw : Z * Z) : sha1_state :=
  let '(a, b, c, d, e) := st in
  let '(t, w) := tw in
  let not_b := Z.lxor b (2 ^ 32 - 1) in
  let '(f, k) :=
    if t <? 20 then (Z.lor (Z.land b c) (Z.land not_b d), 0x5A827999)
    else if t <? 40 then (Z.lxor (Z.lxor b c) d, 0x6ED9EBA1)
    else if t <? 60 then
      (Z.lor (Z.lor (Z.land b c) (Z.land b d)) (Z.land c d), 0x8F1BBCDC)
    else (Z.lxor (Z.lxor b c) d, 0xCA62C1D6) in
  (wrap32 (rotl32 5 a + f + e + k + w), a, rotl32 30 b, c, d).

Definition sha1_block (h : sha1_state) (block : list byte) : sha1_state :=
  let w := rev (sha1_schedule 64 (rev (be32_words block))) in
  let '(a, b, c, d, e) :=
    fold_left sha1_round (combine (map Z.of_nat (seq 0 80)) w) h in
  let '(h0, h1, h2, h3, h4) := h in
  (wrap32 (h0 + a), wrap32 (h1 + b), wrap32 (h2 + c), wrap32 (h3 + d),
   wrap32 (h4 + e)).

Fixpoint sha1_blocks (n : nat) (h : sha1_state) (bs : list byte) : sha1_state :=
  match n with
  | O => h
  | S n' => sha1_blocks n' (sha1_block h (firstn 64 bs)) (skipn 64 bs)
  end.

Definition sha1 (data : list byte) : list byte :=
  let padded := sha1_pad data in
  let '(h0, h1, h2, h3, h4) :=
    sha1_blocks (Nat.div (length padded) 64)
      (0x67452301, 0xEFCDAB89, 0x98BADCFE, 0x10325476, 0xC3D2E1F0) padded in
  be32 h0 ++ be32 h1 ++ be32 h2 ++ be32 h3 ++ be32 h4.

(** *** [QByteArray::toBase64(Base64UrlEncoding | OmitTrailingEquals)] *)

Definition base64url_alphabet : list byte :=
  list_byte_of_string
    "ABCDEFGHIJKLMNOPQRSTUVWXYZabcdefghijklmnopqrstuvwxyz0123456789-_".

Definition base64url_char (z : Z) : byte :=
  nth (Z.to_nat (Z.land z 63)) base64url_alphabet x00.

Fixpoint toBase64Url (bs : list byte) : list byte :=
  match bs with
  | [] => []
  | [a] =>
      let n := Z.shiftl (uchar_to_int a) 16 in
      [base64url_char (Z.shiftr n 18); base64url_char (Z.shiftr n 12)]
  | [a; b] =>
      let n := Z.lor (Z.shiftl (uchar_to_int a) 16) (Z.shiftl (uchar_to_int b) 8) in
      [base64url_char (Z.shiftr n 18); base64url_char (Z.shiftr n 12);
       base64url_char (Z.shiftr n 6)]
  | a :: b :: c :: rest =>
      let n := Z.lor (Z.shiftl (uchar_to_int a) 16)
                 (Z.lor (Z.shiftl (uchar_to_int b) 8) (uchar_to_int c)) in
      [base64url_char (Z.shiftr n 18); base64url_char (Z.shiftr n 12);
       base64url_char (Z.shiftr n 6); base64url_char n] ++ toBase64Url rest
  end.

(** *** [QString::arg(const QString &)]

    Replaces every occurrence of the lowest-numbered place marker ([%1] to
    [%99], optionally written [%L1]) by the argument; a string without a
    marker is returned unchanged. *)

Definition digitValue (c : ascii) : option Z :=
  let n := Z.of_nat (nat_of_ascii c) in
  if (48 <=? n) && (n <=? 57) then Some (n - 48) else None.

Inductive token : Type :=
| Text (c : ascii)
| Marker (n : Z) (text : string).

Inductive scan_state : Type :=
| InText
| AfterPercent
| AfterPercentL
| AfterDigit (d : Z) (text : string).

Definition is_percent (c : ascii) : bool := Ascii.eqb c "%"%char.

Fixpoint tokens (st : scan_state) (s : string) : list token :=
  match s with
  | EmptyString =>
      match st with
      | InText => []
      | AfterPercent => [Text "%"]
      | AfterPercentL => [Text "%"; Text "L"]
      | AfterDigit d text => [Marker d text]
      end
  | String c t =>
      match st with
      | InText =>
          if is_percent c then tokens AfterPercent t else Text c :: tokens InText t
      | AfterPercent =>
          if Ascii.eqb c "L" then tokens AfterPercentL t
          else match digitValue c with
               | Some d => tokens (AfterDigit d (String "%" (String c ""))) t
               | None =>
                   if is_percent c then Text "%" :: tokens AfterPercent t
                   else Text "%" :: Text c :: tokens InText t
               end
      | AfterPercentL =>
          match digitValue c with
          | Some d => tokens (AfterDigit d (String "%" (String "L" (String c "")))) t
          | None =>
              if is_percent c then Text "%" :: Text "L" :: tokens AfterPercent t
              else Text "%" :: Text "L" :: Text c :: tokens InText t
          end
      | AfterDigit d text =>
          match digitValue c with
          | Some d' => Marker (10 * d + d') (text ++ String c "") :: tokens InText t
          | None =>
              if is_percent c then Marker d text :: tokens AfterPercent t
              else Marker d text :: Text c :: tokens InText t
          end
      end
  end.

Definition min_escape (ts : list token) : option Z :=
  fold_left
    (fun m tk =>
       match tk, m with
       | Marker n _, Some k => Some (Z.min n k)
       | Marker n _, None => Some n
       | Text _, _ => m
       end) ts None.

Definition arg (s a : string) : string :=
  let ts := tokens InText s in
  match min_escape ts with
  | None => s
  | Some k =>
      String.concat ""
        (map (fun tk =>
                match tk with
                | Text c => String c ""
                | Marker n text => if n =? k then a else text
                end) ts)
  end.

(** *** [QString::split(sep)] (empty parts are kept) *)

Fixpoint split (sep : ascii) (s : string) : list string :=
  match s with
  | EmptyString => [EmptyString]
  | String c t =>
      if Ascii.eqb c sep then EmptyString :: split sep t
      else match split sep t with
           | p :: ps => String c p :: ps
           | [] => [String c ""]
           end
  end.

(** *** [QString::toInt(&ok, 0)]

    Base 0 follows the C convention: a [0x] prefix means hexadecimal, a
    leading [0] octal, anything else decimal; surrounding white space and a
    sign are accepted.  [None] stands for [ok == false]: a malformed number or
    one outside the range of [int]. *)

Definition isSpace (c : ascii) : bool :=
  let n := nat_of_ascii c in ((9 <=? n) && (n <=? 13))%nat || (n =? 32)%nat.

Fixpoint trim_left (s : string) : string :=
  match s with
  | String c t => if isSpace c then trim_left t else s
  | EmptyString => EmptyString
  end.

Definition trimmed (s : string) : string :=
  String.rev (trim_left (String.rev (trim_left s))).

Definition digit_in_base (base : Z) (c : ascii) : option Z :=
  let n := Z.of_nat (nat_of_ascii c) in
  let v := if (48 <=? n) && (n <=? 57) then n - 48
           else if (97 <=? n) && (n <=? 122) then n - 87
           else if (65 <=? n) && (n <=? 90) then n - 55
           else 36 in
  if v <? base then Some v else None.

Fixpoint digits (base : Z) (acc : Z) (s : string) : option Z :=
  match s with
  | EmptyString => Some acc
  | String c t =>
      match digit_in_base base c with
      | Some v => digits base (base * acc + v) t
      | None => None
      end
  end.

Definition unsigned_base0 (s : string) : option Z :=
  match s with
  | EmptyString => None
  | String "0" (String x t) =>
      if Ascii.eqb x "x" || Ascii.eqb x "X"
      then match t with EmptyString => None | _ => digits 16 0 t end
      else digits 8 0 (String x t)
  | _ => digits 10 0 s
  end.

Definition toInt (s : string) : option Z :=
  let s := trimmed s in
  let '(neg, body) :=
    match s with
    | String "-" t => (true, t)
    | String "+" t => (false, t)
    | _ => (false, s)
    end in
  match unsigned_base0 body with
  | Some v =>
      let r := if neg then - v else v in
      if (- 2 ^ 31 <=? r) && (r <? 2 ^ 31) then Some r else None
  | None => None
  end.

(** *** [QByteArray::toHex] *)

Definition hex_digit (z : Z) : byte :=
  nth (Z.to_nat z) (list_byte_of_string "0123456789abcdef") x00.

Definition toHex (b : list byte) : list byte :=
  flat_map (fun c => [hex_digit (uchar_to_int c / 16);
                      hex_digit (uchar_to_int c mod 16)]) b.

End Qt.

(** Byte strings written in hexadecimal, for constants and examples. *)
Definition hex (s : string) : list byte :=
  (fix go (l : list byte) : list byte :=
     match l with
     | a :: b :: r =>
         match Qt.digit_in_base 16 (ascii_of_byte a), Qt.digit_in_base 16 (ascii_of_byte b) with
         | Some x, Some y => int_to_char (16 * x + y) :: go r
         | _, _ => []
         end
     | _ => []
     end) (list_byte_of_string s).


(** ** State monad *)

Definition State (S A : Type) : Type := S -> A * S.

Definition ret {S A : Type} (a : A) : State S A := fun s => (a, s).

Definition bind {S A B : Type} (m : State S A) (k : A -> State S B) : State S B :=
  fun s => let '(a, s') := m s in k a s'.

Definition get {S : Type} : State S S := fun s => (s, s).

Notation "'let*' x ':=' m 'in' k" := (bind m (fun x => k))
  (at level 10, x name, m at level 100, k at level 200, only parsing).
Notation "m '>>' k" := (bind m (fun _ => k))
  (at level 100, k at level 200, right associativity, only parsing).

(** Appends to the trace. *)
Definition emit (es : list event) : State World unit :=
  fun w => (tt, mkWorld (w_rx w) (w_trace w ++ es)).

(** ** Command channel *)

Definition checksum (data : list byte) : byte :=
  fold_left (fun r c => int_to_char (Z.lxor (uchar_to_int r) (char_to_int c)))
    data xef.

Definition writeCommand (cmd : byte) (payload : list byte) (csum : byte)
  : State World unit :=
  let frame := [x00; cmd] ++ le16 (Z.of_nat (length payload))
                 ++ le32 (uchar_to_int csum) ++ payload in
  SLIP.write frame >> ret tt.

Record Response : Type := mkResponse {
  command : byte;
  value : list byte;
  body : list byte;
  status : byte;
  lastError : byte;
  valid : bool
}.

(** The member initialisers of [struct Response]. *)
Definition Response_init : Response := mkResponse xff [] [] x00 x00 false.

Definition ok (r : Response) : bool :=
  valid r && Byte.eqb (status r) x00 && Byte.eqb (lastError r) x00.

(** [buf.resize(n); s.readRawData(buf.data(), n)]: the buffer afterwards.
    Where the stream holds fewer than [n] bytes the source leaves the rest of
    the buffer indeterminate (zero here); [readResponse] never inspects such
    bytes. *)
Definition readRawData (n : nat) (s : list byte) : list byte :=
  firstn n s ++ repeat x00 (n - length s).

(** [readResponse] after its [SLIP_read]. *)
Definition parseResponse (resp : list byte) : Response :=
  if Z.of_nat (length resp) <? 10 then Response_init
  else
    match resp with
    | direction :: cmd :: size0 :: size1 :: s =>
        if negb (uchar_to_int direction =? 1) then Response_init
        else
          let size := Z.lor (uchar_to_int size0) (Z.shiftl (uchar_to_int size1) 8) in
          let value := readRawData 4 s in
          let body := readRawData (Z.to_nat size) (skipn 4 s) in
          match body with
          | [b0; b1] => mkResponse cmd value body b0 b1 true
          | _ => mkResponse cmd value body x00 x00 true
          end
    | _ => Response_init
    end.

Definition readResponse (timeout : Z) : State World Response :=
  let* resp := SLIP.read timeout in
  ret (parseResponse resp).

(** ** Boot controller *)

Definition sync_payload : list byte :=
  [x07; x07; x12; x20] ++ Qt.repeated [x55] 32.

(** The [for] loop of [sync], with [n] iterations left. *)
Fixpoint sync_loop (n : nat) : State World bool :=
  match n with
  | O => ret true
  | S n' =>
      let* resp := readResponse 200 in
      if negb (valid resp) then ret false else sync_loop n'
  end.

Definition sync : State World bool :=
  writeCommand x08 sync_payload x00 >> sync_loop 8.

Fixpoint trySync (attempts : nat) : State World bool :=
  match attempts with
  | O => ret false
  | S attempts' =>
      let* synced := sync in
      if synced then ret true else trySync attempts'
  end.

Definition rebootIntoBootloader : State World bool :=
  emit [SetDataTerminalReady false; SetRequestToSend true; Msleep 50;
        SetDataTerminalReady true; SetRequestToSend false; Msleep 50;
        SetDataTerminalReady false] >>
  trySync 3.

Definition rebootIntoFirmware : State World unit :=
  emit [SetDataTerminalReady false; SetRequestToSend true; Msleep 50;
        SetRequestToSend false].

(** ** Register reads and probing *)

Definition read_register (addr : Z) : State World (list byte) :=
  let payload := le32 addr in
  writeCommand x0a payload x00 >>
  let* resp := readResponse 200 in
  if negb (valid resp) then ret []
  else if negb (uchar_to_int (command resp) =? 0x0A) then ret []
  else if negb (uchar_to_int (status resp) =? 0) then ret []
  else ret (value resp).

Definition read_MAC : State World (list byte) :=
  let* mac1 := read_register 0x3ff00050 in
  let* mac2 := read_register 0x3ff00054 in
  if negb (length mac1 =? 4)%nat || negb (length mac2 =? 4)%nat then ret []
  else
    match char_to_int (nth 2 mac2 x00) with
    | 0 => ret ([x18; xfe; x34] ++ [nth 1 mac2 x00; nth 0 mac2 x00; nth 3 mac1 x00])
    | 1 => ret ([xac; xd0; x74] ++ [nth 1 mac2 x00; nth 0 mac2 x00; nth 3 mac1 x00])
    | _ => ret []
    end.

(** The outcome of the calls [probe] makes to set up and open the port. *)
Record PortSetup : Type := mkPortSetup {
  setBaudRate : bool;
  setParity : bool;
  setFlowControl : bool;
  open : bool
}.

(** [probe(port)]: the world is the port [s] it constructs. *)
Definition probe (port : PortSetup) : State World bool :=
  if negb (setBaudRate port) then ret false
  else if negb (setParity port) then ret false
  else if negb (setFlowControl port) then ret false
  else if negb (open port) then ret false
  else
    let* rebooted := rebootIntoBootloader in
    if negb rebooted then ret false
    else
      let* mac := read_MAC in
      let mac := Qt.toHex mac in
      if (length mac <? 6)%nat then ret false else ret true.

(** ** The flasher *)

Definition writeBlockSize : Z := 0x400.
Definition flashBlockSize : Z := 4096.
Definition idBlockOffset : Z := 0x10000.
Definition idBlockSize : Z := flashBlockSize.
Definition spiffsBlockOffset : Z := 0x6d000.
Definition spiffsBlockSize : Z := 0x10000.

Definition ESPReadFlashStub : list byte :=
  hex "803c0040" ++ hex "1c4b0040" ++ hex "80000040" ++ hex "0080fe3f"
  ++ hex "c1fbff" ++ hex "d1f8ff" ++ hex "2d0d" ++ hex "31fdff"
  ++ hex "41f7ff" ++ hex "4add" ++ hex "51f9ff" ++ hex "c00500"
  ++ hex "21f9ff" ++ hex "31f3ff" ++ hex "41f5ff" ++ hex "c00400"
  ++ hex "0bcc" ++ hex "56ecfd" ++ hex "61f4ff" ++ hex "a00600"
  ++ hex "000000".

(** [util::StatusOr<T>] with the two error codes the file uses. *)
Inductive error_code : Type := ABORTED | INVALID_ARGUMENT.

Inductive StatusOr (T : Type) : Type :=
| Value (v : T)
| Status (code : error_code) (message : string).
Arguments Value {T} v.
Arguments Status {T} code message.

(** Conversion to [int] (32 bits, two's complement). *)
Definition to_int (z : Z) : Z := (z + 2 ^ 31) mod 2 ^ 32 - 2 ^ 31.

Record FlasherImpl : Type := mkFlasherImpl {
  images_ : gmap Z (list byte);
  port_ : World;
  written_count_ : Z;
  preserve_flash_params_ : bool;
  erase_bug_workaround_ : bool;
  override_flash_params_ : Z;
  merge_flash_filesystem_ : bool;
  generate_id_if_none_found_ : bool;
  id_hostname_ : string
}.

Definition set_images_ (m : gmap Z (list byte)) (self : FlasherImpl) : FlasherImpl :=
  mkFlasherImpl m (port_ self) (written_count_ self)
    (preserve_flash_params_ self) (erase_bug_workaround_ self)
    (override_flash_params_ self) (merge_flash_filesystem_ self)
    (generate_id_if_none_found_ self) (id_hostname_ self).

Definition set_port_ (w : World) (self : FlasherImpl) : FlasherImpl :=
  mkFlasherImpl (images_ self) w (written_count_ self)
    (preserve_flash_params_ self) (erase_bug_workaround_ self)
    (override_flash_params_ self) (merge_flash_filesystem_ self)
    (generate_id_if_none_found_ self) (id_hostname_ self).

Definition set_written_count_ (n : Z) (self : FlasherImpl) : FlasherImpl :=
  mkFlasherImpl (images_ self) (port_ self) n
    (preserve_flash_params_ self) (erase_bug_workaround_ self)
    (override_flash_params_ self) (merge_flash_filesystem_ self)
    (generate_id_if_none_found_ self) (id_hostname_ self).

Definition modify {S : Type} (f : S -> S) : State S unit := fun s => (tt, f s).

(** A call on [port_]. *)
Definition on_port {A : Type} (m : State World A) : State FlasherImpl A :=
  fun self => let '(a, w) := m (port_ self) in (a, set_port_ w self).

(** [emit progress(..)], [emit statusMessage(..)], [emit done(..)]: signals
    are recorded in the trace of the world, in order with the port traffic. *)
Definition emit_signal (e : event) : State FlasherImpl unit := on_port (emit [e]).

(** *** [load]: the directory as the source sees it *)

(** One entry of [dir.entryInfoList()] (already filtered by [0x*.bin] and
    sorted by name), with the outcome of the calls [load] makes on it. *)
Record QFileInfo : Type := mkQFileInfo {
  fileName : string;
  (** [file.baseName().toULong(&ok, 16)]: the value when [ok]. *)
  baseName_toULong : option Z;
  (** [None] when [f.open(QIODevice::ReadOnly)] fails, else what
      [f.readAll()] returns. *)
  open_readAll : option (list byte);
  (** [file.size()]. *)
  file_size : Z
}.

(** The message [load] returns; [LoadOk] is the empty string. *)
Inductive load_result : Type :=
| LoadOk
| DirectoryDoesNotExist
| NoFilesToFlash
| NotAValidAddress (name : string)
| FailedToOpen (name : string)
| SizeMismatch (name : string) (size len : Z).

(** The [for] loop of [load] over the remaining [files]. *)
Fixpoint load_files (files : list QFileInfo) (images : gmap Z (list byte))
  : load_result * gmap Z (list byte) :=
  match files with
  | [] => (LoadOk, images)
  | file :: files' =>
      match baseName_toULong file with
      | None => (NotAValidAddress (fileName file), images)
      | Some addr =>
          match open_readAll file with
          | None => (FailedToOpen (fileName file), images)
          | Some bytes =>
              if negb (Z.of_nat (length bytes) =? file_size file)
              then (SizeMismatch (fileName file) (file_size file)
                      (Z.of_nat (length bytes)), ∅)
              else load_files files' (<[addr := bytes]> images)
          end
      end
  end.

(** [load(path)]: [dir] is [None] when the directory does not exist. *)
Definition load (dir : option (list QFileInfo)) : State FlasherImpl load_result :=
  modify (set_images_ ∅) >>
  match dir with
  | None => ret DirectoryDoesNotExist
  | Some [] => ret NoFilesToFlash
  | Some files =>
      let* self := get in
      let '(r, images) := load_files files (images_ self) in
      modify (set_images_ images) >> ret r
  end.

(** [setPort(port)]: always succeeds (the empty message). *)
Definition setPort (port : World) : State FlasherImpl string :=
  modify (set_port_ port) >> ret EmptyString.

Section Flasher.

(** Width of [unsigned long]: 64 on LP64 hosts, 32 on Windows. *)
Variable ulong_bits : Z.

(** The values of the successive calls of [qrand()] in [generateIdBlock]. *)
Variable qrand : nat -> Z.

(** Arithmetic on [ulong] wraps. *)
Definition ulong (z : Z) : Z := z mod 2 ^ ulong_bits.

Definition fixupEraseLength (start len : Z) : Z :=
  let sectorSize := 4096 in
  let sectorsPerBlock := 16 in
  let start := start / sectorSize in
  let tail := ulong (sectorsPerBlock - start mod sectorsPerBlock) in
  let sectors := len / sectorSize in
  let sectors := if negb (len mod sectorSize =? 0) then ulong (sectors + 1) else sectors in
  if sectors <=? ulong (2 * tail)
  then ulong (ulong (sectors / 2 + sectors mod 2) * sectorSize)
  else ulong (len - ulong (tail * sectorSize)).

Definition writeFlashStartLocked (addr blocks : Z) : State FlasherImpl bool :=
  let* self := get in
  let payload :=
    (if erase_bug_workaround_ self
     then le32 (fixupEraseLength addr (ulong (blocks * writeBlockSize)))
     else le32 (ulong (blocks * writeBlockSize)))
    ++ le32 blocks ++ le32 writeBlockSize ++ le32 addr in
  on_port (writeCommand x02 payload x00) >>
  let* resp := on_port (readResponse 30000) in
  if negb (ok resp) then ret false else ret true.

Definition writeFlashBlockLocked (seq : Z) (bytes : list byte) : State FlasherImpl bool :=
  let payload := le32 (Z.of_nat (length bytes)) ++ le32 seq ++ le32 0 ++ le32 0
                   ++ bytes in
  on_port (writeCommand x03 payload (checksum bytes)) >>
  let* resp := on_port (readResponse 10000) in
  if negb (ok resp) then ret false else ret true.

(** The block loop of [writeFlashLocked] from offset [start] on.  The loop
    ends on its own condition; [fuel] only bounds the recursion and is never
    what stops it when it starts at the length of [bytes]. *)
Fixpoint writeFlashLocked_loop (fuel : nat) (addr start : Z) (bytes : list byte)
  : State FlasherImpl bool :=
  match fuel with
  | O => ret true
  | S fuel' =>
      if negb (start <? Z.of_nat (length bytes)) then ret true
      else
        let data := Qt.mid (Z.to_nat start) (Z.to_nat writeBlockSize) bytes in
        let data :=
          if Z.of_nat (length data) <? writeBlockSize
          then data ++ Qt.repeated [xff]
                         (to_int (ulong (writeBlockSize - Z.of_nat (length data))))
          else data in
        emit_signal (EmitStatusMessage (WritingBlock (start / writeBlockSize) addr)) >>
        let* written := writeFlashBlockLocked (start / writeBlockSize) data in
        if negb written then ret false
        else
          modify (fun self => set_written_count_ (to_int (written_count_ self + 1)) self) >>
          let* self := get in
          emit_signal (EmitProgress (written_count_ self)) >>
          writeFlashLocked_loop fuel' addr (ulong (start + writeBlockSize)) bytes
  end.

Definition writeFlashLocked (addr : Z) (bytes : list byte) : State FlasherImpl bool :=
  let len := Z.of_nat (length bytes) in
  let blocks := ulong (len / writeBlockSize
                       + (if len mod writeBlockSize =? 0 then 0 else 1)) in
  emit_signal (EmitStatusMessage (ErasingFlashAt addr)) >>
  let* started := writeFlashStartLocked addr blocks in
  if negb started then ret false
  else writeFlashLocked_loop (length bytes) addr 0 bytes.

Definition leaveFlashingModeLocked : State FlasherImpl bool :=
  let payload := [x01; x00; x00; x00] in
  on_port (writeCommand x04 payload x00) >>
  let* resp := on_port (readResponse 10000) in
  if negb (ok resp) then
    let* self := get in
    if erase_bug_workaround_ self then ret true else ret false
  else ret true.

Definition readFlashLocked (offset len : Z) : State FlasherImpl (StatusOr (list byte)) :=
  (* Init flash. *)
  let* started := writeFlashStartLocked 0 0 in
  if negb started then ret (Status ABORTED "failed to initialize flash")
  else
    let stub := le32 offset ++ le32 len ++ le32 1 ++ ESPReadFlashStub in
    let stub_length := Z.of_nat (length stub) in
    let payload := le32 stub_length ++ le32 1 ++ le32 stub_length
                     ++ le32 0x40100000 in
    on_port (writeCommand x05 payload x00) >>
    let* resp := on_port (readResponse 200) in
    if negb (ok resp) then ret (Status ABORTED "failed to start writing to RAM")
    else
      let payload := le32 stub_length ++ le32 0 ++ le32 0 ++ le32 0 ++ stub in
      on_port (writeCommand x07 payload (checksum stub)) >>
      let* resp := on_port (readResponse 200) in
      if negb (ok resp) then ret (Status ABORTED "failed to write to RAM")
      else
        let payload := le32 0 ++ le32 0x4010001c in
        on_port (writeCommand x06 payload x00) >>
        let* resp := on_port (readResponse 200) in
        if negb (ok resp) then ret (Status ABORTED "failed to initialize flash")
        else
          let* r := on_port (SLIP.read 200) in
          if Z.of_nat (length r) <? to_int len
          then ret (Status ABORTED "failed to read flash")
          else
            let* synced := on_port (trySync 5) in
            if negb synced
            then ret (Status ABORTED
                        "failed to jump to bootloader after reading flash")
            else ret (Value r).

Definition readFlashParamsLocked : State FlasherImpl (list byte) :=
  let* res := readFlashLocked 0 4 in
  match res with
  | Status _ _ => ret []
  | Value r =>
      if negb (Byte.eqb (nth 0 r x00) xe9) then ret []
      else ret (Qt.mid 2 2 r)
  end.

(** The check [findIdLocked] makes on the block [r] it has read. *)
Definition findId (r : list byte) : bool :=
  let SHA1Length := 20%nat in
  let hash := firstn SHA1Length r in
  let terminator := Qt.indexOf x00 SHA1Length r in
  if terminator <? 0 then false
  else bool_decide
         (hash = Qt.sha1 (Qt.mid SHA1Length (Z.to_nat (terminator - 20)) r)).

Definition findIdLocked : State FlasherImpl (StatusOr bool) :=
  let* res := readFlashLocked idBlockOffset idBlockSize in
  match res with
  | Status code message => ret (Status code message)
  | Value r => ret (Value (findId r))
  end.

Definition double_quote : string := String (ascii_of_nat 34) EmptyString.

(** The literal [{"id":"//%1/d/%2","key":"%3"}]. *)
Definition id_template : string :=
  String.concat double_quote
    ["{"; "id"; ":"; "//%1/d/%2"; ","; "key"; ":"; "%3"; "}"]%string.

(** The local [data] of [generateIdBlock]: the JSON payload. *)
Definition id_data (id_hostname : string) : list byte :=
  let random := flat_map (fun i => be16 (Z.land (qrand i) 0xFFFF)) (seq 0 6) in
  Qt.toUtf8
    (Qt.arg
       (Qt.arg (Qt.arg id_template id_hostname)
          (Qt.fromUtf8 (Qt.toBase64Url (Qt.mid 0 5 random))))
       (Qt.fromUtf8 (Qt.toBase64Url (Qt.mid_from 5 random)))).

Definition generateIdBlock (id_hostname : string) : list byte :=
  let data := id_data id_hostname in
  let r := Qt.sha1 data ++ data ++ [x00] in
  r ++ Qt.repeated [xff] (to_int (ulong (idBlockSize - Z.of_nat (length r)))).

(** *** [run], in the order of the source *)

(** Lines 439-459: the flash params to use; [None] when [run] has emitted
    [done] and returned. *)
Definition run_flashParams : State FlasherImpl (option Z) :=
  let* self := get in
  if override_flash_params_ self >=? 0 then ret (Some (override_flash_params_ self))
  else if preserve_flash_params_ self then
    let* params := readFlashParamsLocked in
    match params with
    | [p0; p1] =>
        ret (Some (Z.lor (Z.shiftl (char_to_int p0) 8) (char_to_int p1)))
    | _ =>
        emit_signal (EmitDone FailedToReadFlashParams false) >> ret None
    end
  else ret (Some (-1)).

(** Lines 461-470: the boot image is patched, and wins. *)
Definition run_patchBootImage (flashParams : Z) : State FlasherImpl Z :=
  let* self := get in
  match images_ self !! 0 with
  | Some image0 =>
      if (Z.of_nat (length image0) >=? 4) && Byte.eqb (nth 0 image0 x00) xe9
      then
        let image0 :=
          if flashParams >=? 0
          then <[3%nat := int_to_char (Z.land flashParams 0xff)]>
                 (<[2%nat := int_to_char (Z.land (Z.shiftr flashParams 8) 0xff)]>
                    image0)
          else image0 in
        modify (set_images_ (<[0 := image0]> (images_ self))) >>
        ret (Z.lor (Z.shiftl (char_to_int (nth 2 image0 x00)) 8)
                   (char_to_int (nth 3 image0 x00)))
      else ret flashParams
  | None => ret flashParams
  end.

(** Lines 488-503: [false] when [run] has emitted [done] and returned. *)
Definition run_generateId : State FlasherImpl bool :=
  let* self := get in
  if generate_id_if_none_found_ self then
    let* res := findIdLocked in
    match res with
    | Value found =>
        (if negb found
         then modify (fun self =>
                        set_images_ (<[idBlockOffset := generateIdBlock (id_hostname_ self)]>
                                       (images_ self)) self)
         else ret tt) >> ret true
    | Status _ _ => emit_signal (EmitDone FailedToCheckForId false) >> ret false
    end
  else ret true.

(** [images_.keys()]: ascending. *)
Definition keys (images : gmap Z (list byte)) : list Z :=
  merge_sort Z.le (map fst (map_to_list images)).

(** Lines 510-522: the attempts loop for the image at [addr], with
    [attempts] iterations left. *)
Fixpoint run_writeImage (attempts : nat) (addr written : Z) : State FlasherImpl bool :=
  match attempts with
  | O => ret false
  | S attempts' =>
      let* self := get in
      let* success := writeFlashLocked addr (default [] (images_ self !! addr)) in
      if success then ret true
      else
        modify (set_written_count_ written) >>
        emit_signal (EmitProgress written) >>
        let* rebooted := on_port rebootIntoBootloader in
        if negb rebooted then ret false
        else run_writeImage attempts' addr written
  end.

(** Lines 506-527: the loop over the images; [false] when [run] has emitted
    [done] and returned. *)
Fixpoint run_writeImages (addrs : list Z) : State FlasherImpl bool :=
  match addrs with
  | [] => ret true
  | addr :: addrs' =>
      let* self := get in
      let* success := run_writeImage 3 addr (written_count_ self) in
      if negb success
      then emit_signal (EmitDone (FailedToFlashImageAt addr) false) >> ret false
      else run_writeImages addrs'
  end.

(** Lines 529-546. *)
Definition run_finish (flashParams : Z) : State FlasherImpl unit :=
  if Z.land (Z.shiftr flashParams 8) 0xff =? 2
  then (* DIO *)
    on_port rebootIntoFirmware >> emit_signal (EmitDone AllDone true)
  else
    let* left := leaveFlashingModeLocked in
    if negb left then emit_signal (EmitDone FailedToLeaveFlashingMode false)
    else emit_signal (EmitDone AllDone true).

(** Lines 439-527: everything between the reboot into the bootloader and the
    final [switch]; the local [flashParams] when all images were written,
    [None] when [run] has emitted [done] and returned. *)
Definition run_flash : State FlasherImpl (option Z) :=
  let* params := run_flashParams in
  match params with
  | None => ret None
  | Some flashParams =>
      let* flashParams := run_patchBootImage flashParams in
      let* continue := run_generateId in
      if negb continue then ret None
      else
        modify (set_written_count_ 0) >>
        let* self := get in
        let* written := run_writeImages (keys (images_ self)) in
        if negb written then ret None else ret (Some flashParams)
  end.

Definition run : State FlasherImpl unit :=
  let* rebooted := on_port rebootIntoBootloader in
  if negb rebooted then emit_signal (EmitDone FailedToTalkToBootloader false)
  else
    let* flashed := run_flash in
    match flashed with
    | None => ret tt
    | Some flashParams => run_finish flashParams
    end.

(** [images_.values()]: in ascending order of the keys. *)
Definition values (images : gmap Z (list byte)) : list (list byte) :=
  map (fun addr => default [] (images !! addr)) (keys images).

Definition totalBlocks (self : FlasherImpl) : Z :=
  fold_left
    (fun r bytes =>
       let len := Z.of_nat (length bytes) in
       let r := to_int (ulong (r + len / writeBlockSize)) in
       if negb (len mod writeBlockSize =? 0) then to_int (r + 1) else r)
    (values (images_ self)) 0.

End Flasher.

(** ** Flash parameter strings *)

Section FlashParamStrings.

Local Open Scope string_scope.
Local Open Scope Z_scope.

Definition flashMode : gmap string Z :=
  list_to_map [("qio", 0); ("qout", 1); ("dio", 2); ("dout", 3)].

Definition flashSize : gmap string Z :=
  list_to_map
    [("4m", 0); ("2m", 1); ("8m", 2); ("16m", 3); ("32m", 4); ("16m-c1", 5);
     ("32m-c1", 6); ("32m-c2", 7)].

Definition flashFreq : gmap string Z :=
  list_to_map [("40m", 0); ("26m", 1); ("20m", 2); ("80m", 0xf)].

Definition flashParamsFromString (s : string) : StatusOr Z :=
  let parts := Qt.split "," s in
  match parts with
  | [_] =>
      (* number *)
      match Qt.toInt s with
      | None => Status INVALID_ARGUMENT "invalid number"
      | Some r => Value (Z.land r 0xffff)
      end
  | [part0; part1; part2] =>
      (* string *)
      match flashMode !! part0 with
      | None => Status INVALID_ARGUMENT "invalid flash mode"
      | Some mode =>
          match flashSize !! part1 with
          | None => Status INVALID_ARGUMENT "invalid flash size"
          | Some size =>
              match flashFreq !! part2 with
              | None => Status INVALID_ARGUMENT "invalid flash frequency"
              | Some freq =>
                  Value (Z.lor (Z.lor (Z.shiftl mode 8) (Z.shiftl size 4)) freq)
              end
          end
      end
  | _ =>
      Status INVALID_ARGUMENT
        "must be either a number or a comma-separated list of three items"
  end.

End FlashParamStrings.



(** * Vocabulary of the statements *)

(** The 256 bytes. *)
Definition all_bytes : list byte :=
  map (fun n => int_to_char (Z.of_nat n)) (seq 0 256).

(** The body length a response frame declares in its header. *)
Definition declared_size (frame : list byte) : Z :=
  Z.lor (uchar_to_int (nth 2 frame x00))
        (Z.shiftl (uchar_to_int (nth 3 frame x00)) 8).

(** The responses the next [n] calls of [readResponse] return. *)
Fixpoint next_responses (n : nat) (w : World) : list Response :=
  match n with
  | O => []
  | S n' =>
      let '(resp, w') := readResponse 200 w in
      resp :: next_responses n' w'
  end.

(** The world after [n] calls of [readResponse] that stop after the first
    invalid response. *)
Fixpoint after_responses (n : nat) (w : World) : World :=
  match n with
  | O => w
  | S n' =>
      let '(resp, w') := readResponse 200 w in
      if valid resp then after_responses n' w' else w'
  end.

(** The frame of the sync command. *)
Definition sync_frame : list byte :=
  hex "0008240000000000" ++ hex "07071220" ++ repeat x55 32.

(** The world after the SLIP frame [frame] has been put on the wire. *)
Definition sent (frame : list byte) (w : World) : World :=
  mkWorld (w_rx w) (w_trace w ++ map PutChar (SLIP.encode frame)).

(** The world after the events [es]. *)
Definition after (es : list event) (w : World) : World :=
  mkWorld (w_rx w) (w_trace w ++ es).

(** What is put on the wire for the frame [frame]. *)
Definition wire (frame : list byte) : list event := map PutChar (SLIP.encode frame).

(** The frame of [flash_end(stay_in_loader = 1)]: command 0x04, payload
    01 00 00 00. *)
Definition flash_end_frame : list byte := hex "0004040000000000" ++ hex "01000000".

(** The modem-line pulse of [rebootIntoFirmware]. *)
Definition reboot_into_firmware_pulse : list event :=
  [SetDataTerminalReady false; SetRequestToSend true; Msleep 50;
   SetRequestToSend false].

(** The modem-line pulse of [rebootIntoBootloader]. *)
Definition reboot_into_bootloader_pulse : list event :=
  [SetDataTerminalReady false; SetRequestToSend true; Msleep 50;
   SetDataTerminalReady true; SetRequestToSend false; Msleep 50;
   SetDataTerminalReady false].

(** [params[0] << 8 | params[1]] on two [char]s, as [run] combines the flash
    params it read and the bytes of the boot image. *)
Definition flashParams_of (p0 p1 : byte) : Z :=
  Z.lor (Z.shiftl (char_to_int p0) 8) (char_to_int p1).

(** The mode the final [switch] of [run] looks at. *)
Definition mode_of (flashParams : Z) : Z := Z.land (Z.shiftr flashParams 8) 0xff.

(** Number of 4 KB sectors an erase of [len] bytes covers. *)
Definition sectors_of (len : Z) : Z :=
  len / 4096 + (if len mod 4096 =? 0 then 0 else 1).

(** The ROM's [SPIEraseArea] as the comment in [fixupEraseLength] describes
    it: asked for [x] sectors with [t] sectors left in the first block, it
    erases [f(x,t) = 2*x] sectors if [x <= t] and [x+t] otherwise. *)
Definition rom_erased_sectors (x t : Z) : Z :=
  if x <=? t then 2 * x else x + t.

(** A file that loads: its name parses as [addr], it opens, and [readAll]
    returns as many bytes as its size. *)
Definition loadable (name : string) (addr : Z) (bytes : list byte) : QFileInfo :=
  mkQFileInfo name (Some addr) (Some bytes) (Z.of_nat (length bytes)).

(** The map after the images [l] were stored in [images], in order. *)
Definition stored (l : list (string * Z * list byte)) (images : gmap Z (list byte))
  : gmap Z (list byte) :=
  fold_left (fun m '(_, addr, bytes) => <[addr := bytes]> m) l images.

Definition loadable_files (l : list (string * Z * list byte)) : list QFileInfo :=
  map (fun '(name, addr, bytes) => loadable name addr bytes) l.

Section Alphabets.

Local Open Scope string_scope.
Local Open Scope Z_scope.

(** The alphabets of the specification. *)
Definition mode_alphabet : list (string * Z) :=
  [("qio", 0); ("qout", 1); ("dio", 2); ("dout", 3)].

Definition size_alphabet : list (string * Z) :=
  [("4m", 0); ("2m", 1); ("8m", 2); ("16m", 3); ("32m", 4); ("16m-c1", 5);
   ("32m-c1", 6); ("32m-c2", 7)].

Definition freq_alphabet : list (string * Z) :=
  [("40m", 0); ("26m", 1); ("20m", 2); ("80m", 15)].

(** ["mode,size,freq"]. *)
Definition triple (mode size freq : string) : string :=
  mode ++ "," ++ size ++ "," ++ freq.

End Alphabets.

(** ** Vocabulary for the port-level properties *)

(** Events of the serial port itself: bytes on the wire, modem lines and
    sleeps, as opposed to the signals of the flasher. *)
Definition port_event (e : event) : Prop :=
  match e with
  | PutChar _ | SetDataTerminalReady _ | SetRequestToSend _ | Msleep _ => True
  | EmitProgress _ | EmitStatusMessage _ | EmitDone _ _ => False
  end.

(** [m] only appends events of the port to the trace. *)
Definition port_only {A : Type} (m : State World A) : Prop :=
  forall w, exists es,
    w_trace (snd (m w)) = w_trace w ++ es /\ Forall port_event es.

(** The frame [writeCommand] builds. *)
Definition command_frame (cmd : byte) (payload : list byte) (csum : byte) : list byte :=
  [x00; cmd] ++ le16 (Z.of_nat (length payload)) ++ le32 (uchar_to_int csum)
  ++ payload.

(** The response to a register read, as the device sends it: command 0x0A,
    a two-byte body, the register in the value field. *)
Definition register_response (value : list byte) (status lastError : byte)
  : list rx_item :=
  map RxByte (SLIP.encode ([x01; x0a; x02; x00] ++ value ++ [status; lastError])).

(** The frame of a register read. *)
Definition read_register_frame (addr : Z) : list byte :=
  hex "000a040000000000" ++ le32 addr.

(** The MAC address [read_MAC] builds from the two registers. *)
Definition MAC_of (mac1 mac2 : list byte) : list byte :=
  match nth 2 mac2 x00 with
  | x00 => [x18; xfe; x34; nth 1 mac2 x00; nth 0 mac2 x00; nth 3 mac1 x00]
  | x01 => [xac; xd0; x74; nth 1 mac2 x00; nth 0 mac2 x00; nth 3 mac1 x00]
  | _ => []
  end.

(** ** Vocabulary for the properties of the flasher *)

(** Any event but the [done] signal. *)
Definition no_done (e : event) : Prop :=
  match e with
  | EmitDone _ _ => False
  | _ => True
  end.

(** [s'] is [s] with another port, which has seen more port events. *)
Definition port_step (s s' : FlasherImpl) : Prop :=
  s' = set_port_ (port_ s') s /\
  exists es, w_trace (port_ s') = w_trace (port_ s) ++ es /\ Forall port_event es.

(** [s'] is [s] with another port and progress counter; the trace was
    extended, without a [done] signal. *)
Definition io_step (s s' : FlasherImpl) : Prop :=
  s' = set_written_count_ (written_count_ s') (set_port_ (port_ s') s) /\
  exists es, w_trace (port_ s') = w_trace (port_ s) ++ es /\ Forall no_done es.

(** The method [m] relates the state before to the state after by [R]. *)
Definition keeps (R : FlasherImpl -> FlasherImpl -> Prop) {A : Type}
    (m : State FlasherImpl A) : Prop :=
  forall s, R s (snd (m s)).

(** Number of write blocks of an image of [len] bytes. *)
Definition blocks_of (len : Z) : Z :=
  len / 1024 + (if len mod 1024 =? 0 then 0 else 1).

(** Number of blocks still to write from offset [start] of an image of [len]
    bytes. *)
Definition blocks_from (len start : Z) : Z :=
  if start <? len then blocks_of (len - start) else 0.

(** Number of write blocks of the image at [addr]. *)
Definition image_blocks (images : gmap Z (list byte)) (addr : Z) : Z :=
  blocks_of (Z.of_nat (length (default [] (images !! addr)))).

(** Number of write blocks of the images at [addrs]. *)
Definition images_blocks (images : gmap Z (list byte)) (addrs : list Z) : Z :=
  fold_right Z.add 0 (map (image_blocks images) addrs).

(** The configuration of the flasher is the same in [s] and [s']. *)
Definition same_config (s s' : FlasherImpl) : Prop :=
  preserve_flash_params_ s' = preserve_flash_params_ s /\
  erase_bug_workaround_ s' = erase_bug_workaround_ s /\
  override_flash_params_ s' = override_flash_params_ s /\
  merge_flash_filesystem_ s' = merge_flash_filesystem_ s /\
  generate_id_if_none_found_ s' = generate_id_if_none_found_ s /\
  id_hostname_ s' = id_hostname_ s.

(** How the images [m'] may differ from the images [m]: at address 0 in bytes
    2 and 3 of the image only, at the address of the ID block by the block
    [gen] being installed, and nowhere else. *)
Definition images_step (gen : list byte) (m m' : gmap Z (list byte)) : Prop :=
  (forall addr, addr <> 0 -> addr <> idBlockOffset -> m' !! addr = m !! addr) /\
  (m' !! idBlockOffset = m !! idBlockOffset \/ m' !! idBlockOffset = Some gen) /\
  match m !! 0 with
  | Some image0 =>
      exists image0',
        m' !! 0 = Some image0' /\ length image0' = length image0 /\
        firstn 2 image0' = firstn 2 image0 /\ skipn 4 image0' = skipn 4 image0
  | None => m' !! 0 = None
  end.

(** The trace of [s'] extends that of [s] without a [done] signal. *)
Definition quiet_trace (s s' : FlasherImpl) : Prop :=
  exists es,
    w_trace (port_ s') = w_trace (port_ s) ++ es /\ Forall no_done es.

(** The trace of [s'] extends that of [s] by events that end with the one
    [done] signal among them, which reports success only as "All done!". *)
Definition done_trace (s s' : FlasherImpl) : Prop :=
  exists es msg ok,
    w_trace (port_ s') = w_trace (port_ s) ++ es ++ [EmitDone msg ok] /\
    Forall no_done es /\ (ok = true <-> msg = AllDone).

(** A part of [run] from [s] to [s']: [finished] tells whether [done] was
    emitted. *)
Definition phase (gen : list byte) (finished : bool) (s s' : FlasherImpl) : Prop :=
  same_config s s' /\ images_step gen (images_ s) (images_ s') /\
  if finished then done_trace s s' else quiet_trace s s'.

(** The payload of the flash_begin command for [blocks] blocks at [addr]. *)
Definition flash_begin_payload (ulong_bits : Z) (workaround : bool) (addr blocks : Z)
  : list byte :=
  (if workaround
   then le32 (fixupEraseLength ulong_bits addr (ulong ulong_bits (blocks * writeBlockSize)))
   else le32 (ulong ulong_bits (blocks * writeBlockSize)))
  ++ le32 blocks ++ le32 writeBlockSize ++ le32 addr.

(** ** Scripted devices and inputs *)

(** A response frame with a two-byte body, as the device sends it. *)
Definition response (cmd status lastError : byte) : list rx_item :=
  map RxByte
    (SLIP.encode ([x01; cmd] ++ hex "0200" ++ hex "00000000" ++ [status; lastError])).

Definition response_ok (cmd : byte) : list rx_item := response cmd x00 x00.

(** The eight responses to a sync. *)
Definition synced : list rx_item := concat (repeat (response_ok x08) 8).

(** The device's side of a flash read that returns [bytes]. *)
Definition flash_read (bytes : list byte) : list rx_item :=
  response_ok x02 ++ response_ok x05 ++ response_ok x07 ++ response_ok x06
  ++ map RxByte (SLIP.encode bytes) ++ synced.

(** The device's side of writing an image of [blocks] blocks. *)
Definition image_written (blocks : nat) : list rx_item :=
  response_ok x02 ++ concat (repeat (response_ok x03) blocks).

(** A well-formed response with an empty body, as the port delivers it. *)
Definition empty_body_response : World :=
  mkWorld (map RxByte (SLIP.encode (hex "0108000000000000"))) [].

(** Two valid responses followed by a truncated one. *)
Definition third_response_invalid : World :=
  mkWorld (response_ok x08 ++ response_ok x08
             ++ map RxByte (SLIP.encode (hex "0108")) ++ synced) [].

(** A flasher that preserves the flash params of the device and has the boot
    image E9 00 AA BB to write; the device's flash starts with E9 00 02 90. *)
Definition preserving_flasher : FlasherImpl :=
  mkFlasherImpl {[ 0 := hex "E900AABB" ]}
    (mkWorld (synced ++ flash_read (hex "E9000290") ++ image_written 1
                ++ response_ok x04) [])
    0 true true (-1) false false "".

(** A flasher with a boot image in DIO mode (E9 00 02 40). *)
Definition dio_flasher : FlasherImpl :=
  mkFlasherImpl {[ 0 := hex "E9000240" ]}
    (mkWorld (synced ++ image_written 1) [])
    0 false true (-1) false false "".

(** A flasher without the erase-bug workaround, with a boot image in QIO mode,
    and a device that answers flash_end with status 1. *)
Definition plain_flasher : FlasherImpl :=
  mkFlasherImpl {[ 0 := hex "E9000040" ]}
    (mkWorld (synced ++ image_written 1 ++ response x04 x01 x06) [])
    0 false false (-1) false false "".

Definition no_qrand : nat -> Z := fun _ => 0.

(** The frames of the flash read of 4 bytes at offset 0. *)
Definition read_params_frames : list event :=
  wire (hex "0002100000000000" ++ hex "00000000000000000004000000000000")
  ++ wire (hex "0005100000000000" ++ hex "4c000000010000004c00000000001040")
  ++ wire (hex "00075c00" ++ le32 (uchar_to_int
                                      (checksum (hex "000000000400000001000000"
                                                   ++ ESPReadFlashStub)))
             ++ hex "4c000000000000000000000000000000"
             ++ hex "000000000400000001000000" ++ ESPReadFlashStub)
  ++ wire (hex "0006080000000000" ++ hex "000000001c001040")
  ++ wire sync_frame.

(** The frames that write the one-block image [image] at address 0, with the
    erase-bug workaround. *)
Definition write_image_frames (image : list byte) : list event :=
  let block := image ++ repeat xff (1024 - length image) in
  [EmitStatusMessage (ErasingFlashAt 0)]
  ++ wire (hex "0002100000000000" ++ hex "00100000010000000004000000000000")
  ++ [EmitStatusMessage (WritingBlock 0 0)]
  ++ wire (hex "00031004" ++ le32 (uchar_to_int (checksum block))
             ++ hex "00040000000000000000000000000000" ++ block)
  ++ [EmitProgress 1].

(** A host name of 4100 characters, and one with a zero character. *)
Definition long_hostname : string := String.concat "" (repeat "0123456789"%string 410).
Definition zero_hostname : string := String "a" (String (ascii_of_nat 0) "b").

(** A directory whose second file has a name that is no address, loaded into
    a flasher that holds an image at 0x7000. *)
Definition dir_with_bad_name : list QFileInfo :=
  loadable_files [("0x00000.bin"%string, 0, hex "E900AABB")]
    ++ mkQFileInfo "0xnope.bin" None (Some []) 0 :: [].

Definition flasher_with_image : FlasherImpl :=
  mkFlasherImpl {[ 0x7000 := hex "FF" ]} (mkWorld [] []) 0 true true (-1)
    true true "".

(** A flasher with a boot image in DIO mode whose size and frequency byte is
    0x90 (E9 00 02 90), and a device that acknowledges everything, flash_end
    included. *)
Definition dio_high_size_flasher : FlasherImpl :=
  mkFlasherImpl {[ 0 := hex "E9000290" ]}
    (mkWorld (synced ++ image_written 1 ++ response_ok x04) [])
    0 false true (-1) false false "".

(** * Properties *)

(** ** Bytes *)

(** Case analysis over all bytes, by computation. *)
Lemma all_bytes_complete (c : byte) : In c all_bytes.
Proof.
  unfold all_bytes. apply in_map_iff.
  exists (N.to_nat (Byte.to_N c)). split; [now destruct c|].
  apply in_seq. pose proof (Byte.to_N_bounded c). lia.
Qed.

Lemma forall_bytes (P : byte -> bool) :
  forallb P all_bytes = true -> forall c, P c = true.
Proof.
  rewrite forallb_forall. intros H c. apply H, all_bytes_complete.
Qed.

Lemma forall_bytes2 (P : byte -> byte -> bool) :
  forallb (fun a => forallb (P a) all_bytes) all_bytes = true ->
  forall a b, P a b = true.
Proof.
  intros H a b. apply forall_bytes.
  exact (forall_bytes (fun a => forallb (P a) all_bytes) H a).
Qed.

Lemma int_to_char_uchar (c : byte) : int_to_char (uchar_to_int c) = c.
Proof.
  apply Byte.byte_dec_bl.
  apply (forall_bytes (fun c => Byte.eqb (int_to_char (uchar_to_int c)) c)).
  vm_compute. reflexivity.
Qed.

(** ** Checksum *)

Lemma checksum_step (r c : byte) :
  uchar_to_int (int_to_char (Z.lxor (uchar_to_int r) (char_to_int c)))
  = Z.lxor (uchar_to_int r) (uchar_to_int c).
Proof.
  apply Z.eqb_eq.
  apply (forall_bytes2
           (fun r c =>
              uchar_to_int (int_to_char (Z.lxor (uchar_to_int r) (char_to_int c)))
              =? Z.lxor (uchar_to_int r) (uchar_to_int c))).
  vm_compute. reflexivity.
Qed.

(** The checksum is 0xEF xor-folded over the data bytes: the sign extension of
    the [char]s is cut off again by the conversion to [quint8]. *)
Theorem checksum_xor_fold (data : list byte) :
  uchar_to_int (checksum data) = fold_left Z.lxor (map uchar_to_int data) 0xEF.
Proof.
  unfold checksum. change 0xEF with (uchar_to_int xef).
  generalize xef. induction data as [|c data IH]; intros r; [reflexivity|].
  simpl. rewrite IH. now rewrite checksum_step.
Qed.

(** Scenario 2 of the specification. *)
Example checksum_example : checksum (hex "010203") = xef.
Proof. reflexivity. Qed.

(** ** SLIP codec *)

(** The frame loop accumulates stuffed bytes unstuffed, up to the closing
    delimiter. *)
Lemma SLIP_read_frame_stuffed (b ret : list byte) (rest : list rx_item) :
  SLIP.read_frame ret (map RxByte (flat_map SLIP.stuff b) ++ RxByte xc0 :: rest)
  = (ret ++ b, rest).
Proof.
  revert ret; induction b as [|c b IH]; intros ret.
  - simpl. now rewrite app_nil_r.
  - replace (ret ++ c :: b) with ((ret ++ [c]) ++ b) by now rewrite <- app_assoc.
    rewrite <- IH. destruct c; reflexivity.
Qed.

(** Bytes before the first delimiter are dropped. *)
Lemma SLIP_skip_prefix_junk (junk : list byte) (rx : list rx_item) :
  Forall (fun c => c <> xc0) junk ->
  SLIP.skip_prefix (map RxByte junk ++ RxByte xc0 :: rx) = (true, rx).
Proof.
  induction 1 as [|c junk Hc _ IH]; [reflexivity|].
  simpl. rewrite IH. destruct c; try reflexivity. now elim Hc.
Qed.

(** C3: decoding the SLIP encoding of any byte sequence gives it back, and
    leaves the rest of the input untouched. *)
Theorem SLIP_decode_encode (b : list byte) (rest : list rx_item) :
  SLIP.decode (map RxByte (SLIP.encode b) ++ rest) = (b, rest).
Proof.
  unfold SLIP.decode, SLIP.encode. simpl.
  rewrite map_app, <- app_assoc. simpl.
  apply SLIP_read_frame_stuffed.
Qed.

(** The same through the port, with anything but a delimiter in front of the
    frame. *)
Lemma SLIP_read_write (junk b : list byte) (rest : list rx_item)
    (trace : list event) (timeout : Z) :
  Forall (fun c => c <> xc0) junk ->
  SLIP.read timeout
    (mkWorld (map RxByte junk ++ map RxByte (SLIP.encode b) ++ rest) trace)
  = (b, mkWorld rest trace).
Proof.
  intros Hjunk. unfold SLIP.read, SLIP.decode, SLIP.encode. simpl.
  rewrite (SLIP_skip_prefix_junk junk _ Hjunk).
  rewrite map_app, <- app_assoc. simpl.
  now rewrite SLIP_read_frame_stuffed.
Qed.

(** A frame without reserved bytes is only wrapped in delimiters. *)
Theorem SLIP_encode_plain (b : list byte) :
  Forall (fun c => c <> xc0 /\ c <> xdb) b ->
  SLIP.encode b = xc0 :: b ++ [xc0].
Proof.
  intros Hplain. unfold SLIP.encode. do 2 f_equal.
  induction Hplain as [|c b [Hc0 Hdb] _ IH]; [reflexivity|].
  simpl. rewrite IH. destruct c; try reflexivity; contradiction.
Qed.

Lemma SLIP_encode_plain_witness :
  SLIP.encode (hex "0108") = xc0 :: hex "0108" ++ [xc0].
Proof.
  apply SLIP_encode_plain. repeat constructor; discriminate.
Defined.

Lemma SLIP_read_write_witness :
  SLIP.read 200
    (mkWorld (map RxByte (hex "00FF") ++ map RxByte (SLIP.encode (hex "C0DB01"))
                ++ [RxNone]) [])
  = (hex "C0DB01", mkWorld [RxNone] []).
Proof.
  apply (SLIP_read_write (hex "00FF") (hex "C0DB01") [RxNone] [] 200).
  repeat constructor; discriminate.
Defined.

(** Scenario 1 of the specification. *)
Example SLIP_encode_example : SLIP.encode (hex "C0DB01") = hex "C0DBDCDBDD01C0".
Proof. reflexivity. Qed.

(** ** Command channel *)

(** State monad steps, for unfolding in proofs. *)
Lemma bind_eq {S A B : Type} (m : State S A) (k : A -> State S B) (s : S) :
  bind m k s = k (fst (m s)) (snd (m s)).
Proof. unfold bind. now destruct (m s). Qed.

Lemma readResponse_eq (timeout : Z) (w : World) :
  readResponse timeout w
  = (parseResponse (fst (SLIP.read timeout w)), snd (SLIP.read timeout w)).
Proof. unfold readResponse. now rewrite bind_eq. Qed.

(** Reading a response leaves the trace alone. *)
Lemma readResponse_world (timeout : Z) (w : World) :
  snd (readResponse timeout w)
  = mkWorld (snd (SLIP.decode (w_rx w))) (w_trace w).
Proof.
  rewrite readResponse_eq. unfold SLIP.read.
  now destruct (SLIP.decode (w_rx w)).
Qed.

(** A response is [ok] only if it is [valid]. *)
Lemma ok_valid (r : Response) : ok r = true -> valid r = true.
Proof. unfold ok. now destruct (valid r). Qed.

Lemma parseResponse_valid (frame : list byte) :
  valid (parseResponse frame) = true -> 10 <= Z.of_nat (length frame).
Proof.
  unfold parseResponse.
  destruct (Z.ltb_spec (Z.of_nat (length frame)) 10) as [Hlt|Hge]; [discriminate|].
  intros _. exact Hge.
Qed.

(** C10 (as amended): a response is valid only when its frame has at least 10
    bytes; so a frame that is as long as its header declares (8 bytes and the
    body) and declares a body of fewer than 2 bytes is neither valid nor ok. *)
Theorem readResponse_short_frame_invalid (timeout : Z) (w : World) :
  let frame := fst (SLIP.read timeout w) in
  let resp := fst (readResponse timeout w) in
  (valid resp = true -> 10 <= Z.of_nat (length frame)) /\
  (Z.of_nat (length frame) = 8 + declared_size frame ->
   declared_size frame < 2 ->
   valid resp = false /\ ok resp = false).
Proof.
  intros frame resp. subst resp. rewrite readResponse_eq. simpl. fold frame.
  split; [apply parseResponse_valid|].
  intros Hlen Hsize.
  assert (Hv : valid (parseResponse frame) = false).
  { destruct (valid (parseResponse frame)) eqn:E; [|reflexivity].
    apply parseResponse_valid in E. lia. }
  split; [exact Hv|].
  destruct (ok (parseResponse frame)) eqn:E; [|reflexivity].
  apply ok_valid in E. congruence.
Qed.

Lemma readResponse_short_frame_invalid_witness :
  valid (fst (readResponse 200 empty_body_response)) = false /\
  ok (fst (readResponse 200 empty_body_response)) = false.
Proof.
  apply (readResponse_short_frame_invalid 200 empty_body_response);
    vm_compute; reflexivity.
Defined.

(** C10 as stated fails: a frame of 10 bytes that declares an empty body is
    valid, and ok. *)
Lemma readResponse_declared_empty_valid :
  let w := mkWorld (map RxByte (SLIP.encode (hex "01080000000000000000"))) [] in
  declared_size (fst (SLIP.read 200 w)) = 0 /\
  valid (fst (readResponse 200 w)) = true /\
  ok (fst (readResponse 200 w)) = true.
Proof. vm_compute. repeat split; reflexivity. Qed.

(** ** Boot controller *)

Lemma sync_loop_spec (n : nat) (w : World) :
  sync_loop n w = (forallb valid (next_responses n w), after_responses n w).
Proof.
  revert w; induction n as [|n IH]; intros w; [reflexivity|].
  simpl. rewrite bind_eq.
  destruct (readResponse 200 w) as [resp w'] eqn:E. simpl.
  destruct (valid resp); simpl; [apply IH | reflexivity].
Qed.

(** C6: sync puts command 0x08 with payload 07 07 12 20 and 32 times 0x55 on
    the wire, then reads up to 8 responses, and succeeds exactly when all 8 are
    valid; any invalid one makes it fail, and it stops reading there. *)
Theorem sync_all_eight_valid (w : World) :
  let sent := mkWorld (w_rx w) (w_trace w ++ map PutChar (SLIP.encode sync_frame)) in
  (fst (sync w) = true <->
   length (next_responses 8 sent) = 8%nat /\
   Forall (fun resp => valid resp = true) (next_responses 8 sent)) /\
  (forall i resp, next_responses 8 sent !! i = Some resp -> valid resp = false ->
                  fst (sync w) = false) /\
  snd (sync w) = after_responses 8 sent.
Proof.
  intros sent.
  assert (Hsync : sync w = sync_loop 8 sent) by reflexivity.
  rewrite Hsync, sync_loop_spec. simpl fst. simpl snd.
  assert (Hlen : forall n w', length (next_responses n w') = n).
  { induction n as [|n IH]; intros w'; [reflexivity|].
    simpl. destruct (readResponse 200 w'). simpl. now rewrite IH. }
  split; [|split; [|reflexivity]].
  - rewrite forallb_forall, Forall_forall. split.
    + intros H. split; [apply Hlen|]. intros x Hx. apply H.
      now apply list_elem_of_In.
    + intros [_ H] x Hx. apply H. now apply list_elem_of_In.
  - intros i resp Hi Hinv.
    apply not_true_is_false. rewrite forallb_forall. intros H.
    rewrite (H resp) in Hinv; [discriminate|].
    apply list_elem_of_In. eapply list_elem_of_lookup_2. exact Hi.
Qed.

(** ** The final step of [run] *)

Lemma on_port_eq {A : Type} (m : State World A) (self : FlasherImpl) :
  on_port m self = (fst (m (port_ self)), set_port_ (snd (m (port_ self))) self).
Proof. unfold on_port. now destruct (m (port_ self)). Qed.

Lemma leaveFlashingModeLocked_eq (self : FlasherImpl) :
  let w1 := sent flash_end_frame (port_ self) in
  leaveFlashingModeLocked self
  = (ok (fst (readResponse 10000 w1)) || erase_bug_workaround_ self,
     set_port_ (snd (readResponse 10000 w1)) self).
Proof.
  intros w1. unfold leaveFlashingModeLocked.
  rewrite bind_eq, on_port_eq.
  change (snd (writeCommand x04 [x01; x00; x00; x00] x00 (port_ self))) with w1.
  cbn [fst snd]. rewrite bind_eq, on_port_eq. cbn [fst snd port_ set_port_].
  destruct (readResponse 10000 w1) as [resp w2]. cbn [fst snd].
  destruct (ok resp); simpl; [reflexivity|].
  rewrite bind_eq. simpl.
  now destruct (erase_bug_workaround_ self).
Qed.

Lemma run_finish_dio (flashParams : Z) (self : FlasherImpl) :
  mode_of flashParams = 2 ->
  run_finish flashParams self
  = (tt, set_port_
           (after (reboot_into_firmware_pulse ++ [EmitDone AllDone true]) (port_ self))
           self).
Proof.
  intros Hmode. unfold run_finish. fold (mode_of flashParams).
  rewrite Hmode. simpl. unfold bind, on_port, emit_signal, on_port. simpl.
  unfold after. now rewrite <- app_assoc.
Qed.

Lemma run_finish_flash_end (flashParams : Z) (self : FlasherImpl) :
  mode_of flashParams <> 2 ->
  run_finish flashParams self
  = let left := fst (leaveFlashingModeLocked self) in
    let self' := snd (leaveFlashingModeLocked self) in
    (tt, set_port_
           (after [EmitDone (if left then AllDone else FailedToLeaveFlashingMode) left]
              (port_ self'))
           self').
Proof.
  intros Hmode. unfold run_finish. fold (mode_of flashParams).
  destruct (Z.eqb_spec (mode_of flashParams) 2) as [E|_]; [contradiction|].
  rewrite bind_eq.
  destruct (leaveFlashingModeLocked self) as [left self']. simpl.
  now destruct left.
Qed.

Section Run.

Variable ulong_bits : Z.
Variable qrand : nat -> Z.

(** Once the bootloader answers and all images are written, what is left of
    [run] is its final [switch]. *)
Lemma run_after_flash (s s0 s1 : FlasherImpl) (flashParams : Z) :
  on_port rebootIntoBootloader s = (true, s0) ->
  run_flash ulong_bits qrand s0 = (Some flashParams, s1) ->
  run ulong_bits qrand s = run_finish flashParams s1.
Proof.
  intros Hboot Hflash. unfold run.
  rewrite bind_eq, Hboot. simpl.
  now rewrite bind_eq, Hflash.
Qed.

(** The [flashParams] the final [switch] sees are the ones the boot image step
    produced: those read back from the boot image when there is one. *)
Lemma run_flash_flashParams (s0 s1 : FlasherImpl) (flashParams : Z) :
  run_flash ulong_bits qrand s0 = (Some flashParams, s1) ->
  exists (flashParams0 : Z) (s : FlasherImpl),
    run_flashParams ulong_bits s0 = (Some flashParams0, s) /\
    fst (run_patchBootImage flashParams0 s) = flashParams.
Proof.
  unfold run_flash. rewrite bind_eq.
  destruct (run_flashParams ulong_bits s0) as [[flashParams0|] s]; cbn [fst snd];
    [|discriminate].
  rewrite bind_eq.
  destruct (run_patchBootImage flashParams0 s) as [flashParams' s'] eqn:Epatch.
  cbn [fst snd]. rewrite bind_eq.
  destruct (run_generateId ulong_bits qrand s') as [[] s'']; cbn [fst snd negb];
    [|discriminate].
  rewrite !bind_eq. cbn [fst snd].
  match goal with
  | |- context [run_writeImages ?b ?k ?st] => destruct (run_writeImages b k st) as [[] s3]
  end; cbn [fst snd negb]; [|discriminate].
  intros [= <- _]. exists flashParams0, s. now rewrite Epatch.
Qed.

(** After all images have been written, the final step depends on the mode
    [(flashParams >> 8) & 0xff] of the local [flashParams] alone.  For mode 2
    (DIO) the flasher pulses the modem lines to reboot into the firmware and
    emits success, without putting anything on the wire; for any other mode it
    sends the flash_end frame (command 0x04, stay_in_loader = 1) and reports
    the outcome. *)
Theorem run_final_step (s s0 s1 : FlasherImpl) (flashParams : Z) :
  on_port rebootIntoBootloader s = (true, s0) ->
  run_flash ulong_bits qrand s0 = (Some flashParams, s1) ->
  (mode_of flashParams = 2 ->
   run ulong_bits qrand s
   = (tt, set_port_
            (after (reboot_into_firmware_pulse ++ [EmitDone AllDone true]) (port_ s1))
            s1)) /\
  (mode_of flashParams <> 2 ->
   exists (left : bool) (s2 : FlasherImpl) (rx' : list rx_item),
     leaveFlashingModeLocked s1 = (left, s2) /\
     port_ s2 = mkWorld rx' (w_trace (port_ s1) ++ map PutChar (SLIP.encode flash_end_frame)) /\
     run ulong_bits qrand s
     = (tt, set_port_
              (after [EmitDone (if left then AllDone else FailedToLeaveFlashingMode) left]
                 (port_ s2))
              s2)).
Proof.
  intros Hboot Hflash.
  rewrite (run_after_flash _ _ _ _ Hboot Hflash). split; intros Hmode.
  - now apply run_finish_dio.
  - rewrite (run_finish_flash_end _ _ Hmode).
    rewrite leaveFlashingModeLocked_eq. cbn [fst snd].
    eexists _, _, _. split; [reflexivity|]. split; [|reflexivity].
    cbn [port_ set_port_]. rewrite readResponse_world. reflexivity.
Qed.

(** C7: when the response to flash_end (command 0x04, payload 01 00 00 00) is
    not ok, [leaveFlashingModeLocked] returns true if the erase-bug workaround
    is active and false otherwise; in [run] the former goes on to report
    success and the latter ends the run with a failure. *)
Theorem leaveFlashingMode_failure (s s0 s1 : FlasherImpl) (flashParams : Z) :
  let w1 := sent flash_end_frame (port_ s1) in
  let resp := fst (readResponse 10000 w1) in
  let w2 := snd (readResponse 10000 w1) in
  ok resp = false ->
  leaveFlashingModeLocked s1 = (erase_bug_workaround_ s1, set_port_ w2 s1) /\
  (on_port rebootIntoBootloader s = (true, s0) ->
   run_flash ulong_bits qrand s0 = (Some flashParams, s1) ->
   mode_of flashParams <> 2 ->
   run ulong_bits qrand s
   = (tt, set_port_
            (after [if erase_bug_workaround_ s1
                    then EmitDone AllDone true
                    else EmitDone FailedToLeaveFlashingMode false] w2)
            s1)).
Proof.
  intros w1 resp w2 Hok.
  pose proof (leaveFlashingModeLocked_eq s1) as Hleave. simpl in Hleave.
  fold w1 in Hleave. fold resp in Hleave. fold w2 in Hleave.
  rewrite Hok in Hleave. simpl in Hleave.
  split; [exact Hleave|].
  intros Hboot Hflash Hmode.
  rewrite (run_after_flash _ _ _ _ Hboot Hflash).
  rewrite (run_finish_flash_end _ _ Hmode), Hleave. simpl.
  now destruct (erase_bug_workaround_ s1).
Qed.

End Run.

(** ** Flash params and the boot image *)

(** Two bytes below 0x80 combine to a non-negative value whose two low bytes
    are the bytes themselves. *)
Lemma flashParams_of_low (p0 p1 : byte) :
  uchar_to_int p0 < 128 -> uchar_to_int p1 < 128 ->
  0 <= flashParams_of p0 p1 /\
  int_to_char (Z.land (Z.shiftr (flashParams_of p0 p1) 8) 0xff) = p0 /\
  int_to_char (Z.land (flashParams_of p0 p1) 0xff) = p1 /\
  mode_of (flashParams_of p0 p1) = uchar_to_int p0.
Proof.
  intros H0 H1.
  pose proof (forall_bytes2
    (fun p0 p1 =>
       implb ((uchar_to_int p0 <? 128) && (uchar_to_int p1 <? 128))
         ((0 <=? flashParams_of p0 p1)
          && Byte.eqb (int_to_char (Z.land (Z.shiftr (flashParams_of p0 p1) 8) 0xff)) p0
          && Byte.eqb (int_to_char (Z.land (flashParams_of p0 p1) 0xff)) p1
          && (mode_of (flashParams_of p0 p1) =? uchar_to_int p0)))
    ltac:(vm_compute; reflexivity) p0 p1) as H.
  cbv beta in H.
  apply Z.ltb_lt in H0, H1. rewrite H0, H1 in H. simpl in H.
  apply andb_prop in H as [H Hm]. apply andb_prop in H as [H Hb1].
  apply andb_prop in H as [Hpos Hb0].
  repeat split.
  - now apply Z.leb_le.
  - now apply Byte.byte_dec_bl.
  - now apply Byte.byte_dec_bl.
  - now apply Z.eqb_eq.
Qed.

(** A byte of 0x80 or more in either place makes the combination negative,
    and one in the second place hides the mode. *)
Lemma flashParams_of_high (p0 p1 : byte) :
  128 <= uchar_to_int p0 \/ 128 <= uchar_to_int p1 ->
  flashParams_of p0 p1 < 0 /\
  (128 <= uchar_to_int p1 -> mode_of (flashParams_of p0 p1) = 0xff).
Proof.
  intros Hhigh.
  pose proof (forall_bytes2
    (fun p0 p1 =>
       implb ((128 <=? uchar_to_int p0) || (128 <=? uchar_to_int p1))
         (flashParams_of p0 p1 <? 0)
       && implb (128 <=? uchar_to_int p1) (mode_of (flashParams_of p0 p1) =? 0xff))
    ltac:(vm_compute; reflexivity) p0 p1) as H.
  cbv beta in H. apply andb_prop in H as [Hneg Hmode]. split.
  - apply Z.ltb_lt.
    destruct Hhigh as [Hh|Hh]; apply Z.leb_le in Hh; rewrite Hh in Hneg;
      [|rewrite orb_true_r in Hneg]; exact Hneg.
  - intros Hh. apply Z.leb_le in Hh. rewrite Hh in Hmode. now apply Z.eqb_eq.
Qed.

Lemma patched_bytes (image0 : list byte) (hi lo : byte) :
  (4 <= length image0)%nat ->
  let patched := <[3%nat := lo]> (<[2%nat := hi]> image0) in
  Qt.mid 2 2 patched = [hi; lo] /\
  firstn 2 patched = firstn 2 image0 /\
  skipn 4 patched = skipn 4 image0.
Proof.
  intros Hlen.
  destruct image0 as [|x0 [|x1 [|x2 [|x3 l]]]]; simpl in Hlen; try lia.
  repeat split.
Qed.

(** With flash params to apply, [run] writes their two low bytes into bytes
    [2..4) of the boot image, and goes on with the value read back from
    there. *)
Lemma run_patchBootImage_patches (flashParams : Z) (self : FlasherImpl)
    (image0 : list byte) :
  images_ self !! 0 = Some image0 ->
  (4 <= length image0)%nat ->
  nth 0 image0 x00 = xe9 ->
  0 <= flashParams ->
  let hi := int_to_char (Z.land (Z.shiftr flashParams 8) 0xff) in
  let lo := int_to_char (Z.land flashParams 0xff) in
  run_patchBootImage flashParams self
  = (flashParams_of hi lo,
     set_images_ (<[0 := <[3%nat := lo]> (<[2%nat := hi]> image0)]> (images_ self)) self).
Proof.
  intros Himage Hlen Hmagic Hpos hi lo.
  unfold run_patchBootImage. rewrite bind_eq. cbn [get fst snd].
  rewrite Himage, Hmagic.
  destruct (Z.geb_spec (Z.of_nat (length image0)) 4) as [_|]; [|lia].
  destruct (Z.geb_spec flashParams 0) as [_|]; [|lia].
  change (Byte.eqb xe9 xe9) with true. cbn [andb].
  rewrite bind_eq. cbn [modify fst snd ret].
  fold hi lo.
  destruct image0 as [|x0 [|x1 [|x2 [|x3 l]]]]; simpl in Hlen; try lia.
  reflexivity.
Qed.

(** Without flash params to apply (a negative value), the boot image is left
    as it is. *)
Lemma run_patchBootImage_keeps (flashParams : Z) (self : FlasherImpl)
    (image0 : list byte) :
  images_ self !! 0 = Some image0 ->
  (4 <= length image0)%nat ->
  nth 0 image0 x00 = xe9 ->
  flashParams < 0 ->
  run_patchBootImage flashParams self
  = (flashParams_of (nth 2 image0 x00) (nth 3 image0 x00),
     set_images_ (images_ self) self).
Proof.
  intros Himage Hlen Hmagic Hneg.
  unfold run_patchBootImage. rewrite bind_eq. cbn [get fst snd].
  rewrite Himage, Hmagic.
  destruct (Z.geb_spec (Z.of_nat (length image0)) 4) as [_|]; [|lia].
  destruct (Z.geb_spec flashParams 0) as [|_]; [lia|].
  change (Byte.eqb xe9 xe9) with true. cbn [andb].
  rewrite bind_eq. cbn [modify fst snd ret].
  now rewrite (insert_id (images_ self) 0 image0 Himage).
Qed.

(** [override_flash_params] takes precedence: nothing is read from the
    device. *)
Lemma run_flashParams_override (ulong_bits : Z) (self : FlasherImpl) :
  0 <= override_flash_params_ self ->
  run_flashParams ulong_bits self = (Some (override_flash_params_ self), self).
Proof.
  intros Hpos. unfold run_flashParams. rewrite bind_eq. cbn [get fst snd].
  destruct (Z.geb_spec (override_flash_params_ self) 0); [reflexivity|lia].
Qed.

(** With flash params read from the device that hold a byte of 0x80 or more,
    the boot image is left as it is: the defect behind the failing run of
    C1. *)
Lemma boot_image_not_patched (self : FlasherImpl) (image0 : list byte) (p0 p1 : byte) :
  images_ self !! 0 = Some image0 ->
  (4 <= length image0)%nat ->
  nth 0 image0 x00 = xe9 ->
  128 <= uchar_to_int p0 \/ 128 <= uchar_to_int p1 ->
  images_ (snd (run_patchBootImage (flashParams_of p0 p1) self)) !! 0 = Some image0.
Proof.
  intros Himage Hlen Hmagic Hhigh.
  destruct (flashParams_of_high p0 p1 Hhigh) as [Hneg _].
  rewrite (run_patchBootImage_keeps _ _ _ Himage Hlen Hmagic Hneg).
  exact Himage.
Qed.

(** The part of the flash params invariant that holds: with an override, or
    with preserved params whose two bytes are below 0x80, bytes [2..4) of the
    boot image become the two bytes. *)
Theorem boot_image_patch (ulong_bits : Z) (self : FlasherImpl) (image0 : list byte) :
  images_ self !! 0 = Some image0 ->
  (4 <= length image0)%nat ->
  nth 0 image0 x00 = xe9 ->
  (0 <= override_flash_params_ self ->
   let hi := int_to_char (Z.land (Z.shiftr (override_flash_params_ self) 8) 0xff) in
   let lo := int_to_char (Z.land (override_flash_params_ self) 0xff) in
   exists image0',
     run_flashParams ulong_bits self = (Some (override_flash_params_ self), self) /\
     images_ (snd (run_patchBootImage (override_flash_params_ self) self)) !! 0
     = Some image0' /\
     Qt.mid 2 2 image0' = [hi; lo]) /\
  (forall p0 p1,
      uchar_to_int p0 < 128 -> uchar_to_int p1 < 128 ->
      exists image0',
        images_ (snd (run_patchBootImage (flashParams_of p0 p1) self)) !! 0
        = Some image0' /\
        Qt.mid 2 2 image0' = [p0; p1] /\
        fst (run_patchBootImage (flashParams_of p0 p1) self) = flashParams_of p0 p1).
Proof.
  intros Himage Hlen Hmagic. split.
  - intros Hpos hi lo. eexists. split; [now apply run_flashParams_override|].
    rewrite (run_patchBootImage_patches _ _ _ Himage Hlen Hmagic Hpos).
    cbn [snd images_ set_images_]. rewrite lookup_insert_eq.
    split; [reflexivity|]. apply (patched_bytes image0 hi lo Hlen).
  - intros p0 p1 H0 H1.
    destruct (flashParams_of_low p0 p1 H0 H1) as (Hpos & Hhi & Hlo & _).
    eexists.
    rewrite (run_patchBootImage_patches _ _ _ Himage Hlen Hmagic Hpos).
    cbn [fst snd images_ set_images_]. rewrite lookup_insert_eq, Hhi, Hlo.
    split; [reflexivity|]. split; [|reflexivity].
    apply (patched_bytes image0 p0 p1 Hlen).
Qed.

Lemma boot_image_patch_witness :
  exists image0',
    images_ (snd (run_patchBootImage (flashParams_of x03 x02) dio_flasher)) !! 0
    = Some image0' /\
    Qt.mid 2 2 image0' = [x03; x02] /\
    fst (run_patchBootImage (flashParams_of x03 x02) dio_flasher) = 0x0302.
Proof.
  apply (proj2 (boot_image_patch 64 dio_flasher (hex "E9000240")
                  ltac:(vm_compute; reflexivity) ltac:(vm_compute; lia)
                  ltac:(reflexivity))
           x03 x02); vm_compute; reflexivity.
Defined.

(** ** Erase-length compensation *)

Section EraseLength.

Variable ulong_bits : Z.
Hypothesis ulong_bits_ge : 32 <= ulong_bits.

Lemma ulong_small (z : Z) : 0 <= z < 2 ^ 32 -> ulong ulong_bits z = z.
Proof.
  intros Hz. unfold ulong. apply Z.mod_small.
  pose proof (Z.pow_le_mono_r 2 32 ulong_bits ltac:(lia) ulong_bits_ge). lia.
Qed.

Lemma ulong_in_range (z : Z) : 0 <= z < 2 ^ ulong_bits -> ulong ulong_bits z = z.
Proof. intros Hz. unfold ulong. now apply Z.mod_small. Qed.

Lemma to_int_ulong_small (z : Z) :
  0 <= z < 2 ^ 31 -> to_int (ulong ulong_bits z) = z.
Proof.
  intros Hz. rewrite ulong_small by lia.
  unfold to_int. rewrite Z.mod_small; lia.
Qed.

Lemma sectors_of_multiple (y : Z) : 0 <= y -> sectors_of (y * 4096) = y.
Proof.
  intros Hy. unfold sectors_of.
  rewrite Z.div_mul, Z.mod_mul by lia. simpl. lia.
Qed.

Lemma sectors_of_sub (len t : Z) :
  sectors_of (len - t * 4096) = sectors_of len - t.
Proof.
  unfold sectors_of.
  replace (len - t * 4096) with (len + (- t) * 4096) by lia.
  rewrite Z.div_add, Z.mod_add by lia. lia.
Qed.

(** The function in closed form. *)
Lemma fixupEraseLength_eq (addr len : Z) :
  0 <= addr < 2 ^ ulong_bits ->
  0 < len < 2 ^ ulong_bits ->
  let x := sectors_of len in
  let t := 16 - (addr / 4096) mod 16 in
  fixupEraseLength ulong_bits addr len
  = if x <=? 2 * t then (x / 2 + x mod 2) * 4096 else len - t * 4096.
Proof.
  intros Haddr Hlen x t.
  pose proof (Z.pow_le_mono_r 2 32 ulong_bits ltac:(lia) ulong_bits_ge) as Hpow.
  assert (Ht : 1 <= t <= 16) by (subst t; pose proof (Z.mod_pos_bound (addr / 4096) 16); lia).
  assert (Hx : 1 <= x /\ (x - 1) * 4096 < len <= x * 4096 /\ x < 2 ^ ulong_bits).
  { subst x. unfold sectors_of.
    pose proof (Z.div_mod len 4096 ltac:(lia)) as Hdm.
    pose proof (Z.mod_pos_bound len 4096 ltac:(lia)) as Hm.
    destruct (Z.eqb_spec (len mod 4096) 0); lia. }
  unfold fixupEraseLength. cbv zeta.
  fold t. rewrite (ulong_small t) by lia.
  assert (Hsec : (if negb (len mod 4096 =? 0) then ulong ulong_bits (len / 4096 + 1)
                  else len / 4096) = x).
  { subst x. unfold sectors_of.
    pose proof (Z.div_mod len 4096 ltac:(lia)) as Hdm.
    pose proof (Z.mod_pos_bound len 4096 ltac:(lia)) as Hm.
    destruct (Z.eqb_spec (len mod 4096) 0); simpl; [lia|].
    rewrite ulong_in_range; lia. }
  rewrite Hsec. rewrite (ulong_small (2 * t)) by lia.
  destruct (Z.leb_spec x (2 * t)) as [Hle|Hgt].
  - pose proof (Z.div_mod x 2 ltac:(lia)) as Hdm.
    pose proof (Z.mod_pos_bound x 2 ltac:(lia)) as Hm.
    rewrite (ulong_small (x / 2 + x mod 2)) by lia.
    rewrite ulong_small by lia. reflexivity.
  - rewrite (ulong_small (t * 4096)) by lia.
    rewrite ulong_in_range by lia. reflexivity.
Qed.

(** C2: for every start address and every positive length, the sectors the
    defective ROM erases when given the corrected length are the [x] sectors
    requested, or one more, and one more only when [x] is odd and at most
    [2*t]. *)
Theorem fixupEraseLength_compensates (addr len : Z) :
  0 <= addr < 2 ^ ulong_bits ->
  0 < len < 2 ^ ulong_bits ->
  let x := sectors_of len in
  let t := 16 - (addr / 4096) mod 16 in
  let erased :=
    rom_erased_sectors (sectors_of (fixupEraseLength ulong_bits addr len)) t in
  (erased = x \/ erased = x + x mod 2) /\
  (erased <> x -> erased = x + 1 /\ x mod 2 = 1 /\ x <= 2 * t).
Proof.
  intros Haddr Hlen x t erased. subst erased.
  rewrite (fixupEraseLength_eq addr len Haddr Hlen). fold x. fold t.
  assert (Ht : 1 <= t <= 16) by (subst t; pose proof (Z.mod_pos_bound (addr / 4096) 16); lia).
  assert (Hx : 1 <= x).
  { subst x. unfold sectors_of.
    pose proof (Z.div_mod len 4096 ltac:(lia)) as Hdm.
    pose proof (Z.mod_pos_bound len 4096 ltac:(lia)) as Hm.
    destruct (Z.eqb_spec (len mod 4096) 0); lia. }
  pose proof (Z.div_mod x 2 ltac:(lia)) as Hdm.
  pose proof (Z.mod_pos_bound x 2 ltac:(lia)) as Hm.
  unfold rom_erased_sectors.
  destruct (Z.leb_spec x (2 * t)) as [Hle|Hgt].
  - rewrite sectors_of_multiple by lia.
    destruct (Z.leb_spec (x / 2 + x mod 2) t); lia.
  - rewrite sectors_of_sub. fold x.
    destruct (Z.leb_spec (x - t) t); lia.
Qed.

End EraseLength.

Lemma fixupEraseLength_compensates_witness :
  let erased :=
    rom_erased_sectors (sectors_of (fixupEraseLength 64 0x1000 0x3000)) 15 in
  (erased = 3 \/ erased = 3 + 1) /\
  (erased <> 3 -> erased = 3 + 1 /\ 3 mod 2 = 1 /\ 3 <= 2 * 15).
Proof.
  apply (fixupEraseLength_compensates 64 ltac:(lia) 0x1000 0x3000); lia.
Defined.

(** Scenarios 3 and 4 of the specification. *)
Example fixupEraseLength_small : fixupEraseLength 64 0x10000 0x4000 = 0x2000.
Proof. reflexivity. Qed.

Example fixupEraseLength_large : fixupEraseLength 64 0x10000 0x100000 = 0xF0000.
Proof. reflexivity. Qed.

(** ** Identity block *)

Lemma sha1_length (data : list byte) : length (Qt.sha1 data) = 20%nat.
Proof.
  unfold Qt.sha1.
  now destruct (Qt.sha1_blocks _ _ _) as [[[[h0 h1] h2] h3] h4].
Qed.

Lemma index_from_absent (c : byte) (pos : Z) (l rest : list byte) :
  ~ In c l ->
  Qt.index_from c pos (l ++ c :: rest) = pos + Z.of_nat (length l).
Proof.
  revert pos; induction l as [|x l IH]; intros pos Hnot; simpl.
  - assert (E : Byte.eqb c c = true) by now apply Byte.byte_dec_lb.
    rewrite E. lia.
  - destruct (Byte.eqb x c) eqn:E.
    + apply Byte.byte_dec_bl in E. elim Hnot. now left.
    + rewrite IH by (intros Hin; apply Hnot; now right). lia.
Qed.

Lemma repeated_single (c : byte) (n : Z) :
  Qt.repeated [c] n = repeat c (Z.to_nat n).
Proof.
  unfold Qt.repeated. induction (Z.to_nat n) as [|k IH]; simpl; congruence.
Qed.

Section IdBlock.

Variable ulong_bits : Z.
Hypothesis ulong_bits_ge : 32 <= ulong_bits.
Variable qrand : nat -> Z.

(** C4 (as amended): when the JSON payload holds no zero byte and fits (at
    most 4075 bytes, so that hash, payload and terminator are within 4096),
    the block is the 20-byte SHA-1 of the payload, the payload, one 0x00 and
    then 0xFF only, 4096 bytes in all, and [findId] accepts it. *)
Theorem generateIdBlock_findId (id_hostname : string) :
  let data := id_data qrand id_hostname in
  let block := generateIdBlock ulong_bits qrand id_hostname in
  ~ In x00 data ->
  (length data <= 4075)%nat ->
  length block = 4096%nat /\
  block = Qt.sha1 data ++ data ++ [x00] ++ repeat xff (4075 - length data) /\
  length (Qt.sha1 data) = 20%nat /\
  findId block = true.
Proof.
  intros data block Hnul Hlen.
  assert (Hgen : block
                 = let r := Qt.sha1 data ++ data ++ [x00] in
                   r ++ Qt.repeated [xff]
                          (to_int (ulong ulong_bits (idBlockSize - Z.of_nat (length r)))))
    by reflexivity.
  clearbody block data. cbv zeta in Hgen.
  pose proof (sha1_length data) as Hsha.
  remember (Qt.sha1 data) as hash eqn:Hhash.
  assert (Hblock : block = hash ++ data ++ [x00] ++ repeat xff (4075 - length data)).
  { rewrite Hgen, repeated_single.
    rewrite !length_app, Hsha.
    change (length [x00]) with 1%nat.
    change idBlockSize with 4096.
    rewrite (to_int_ulong_small ulong_bits ulong_bits_ge) by lia.
    rewrite <- !app_assoc.
    do 3 f_equal. f_equal. lia. }
  split; [|split; [exact Hblock|split; [exact Hsha|]]].
  - rewrite Hblock, !length_app, Hsha, repeat_length.
    change (length [x00]) with 1%nat. lia.
  - assert (Hskip : skipn 20 block = data ++ x00 :: repeat xff (4075 - length data)).
    { rewrite Hblock, <- Hsha, skipn_app, Nat.sub_diag, skipn_all. reflexivity. }
    assert (Htake : firstn 20 block = hash).
    { rewrite Hblock, <- Hsha, firstn_app, Nat.sub_diag, firstn_all.
      apply app_nil_r. }
    unfold findId. cbv zeta. unfold Qt.indexOf, Qt.mid.
    rewrite Hskip, Htake, (index_from_absent x00 _ data _ Hnul).
    destruct (Z.ltb_spec (Z.of_nat 20 + Z.of_nat (length data)) 0); [lia|].
    replace (Z.to_nat (Z.of_nat 20 + Z.of_nat (length data) - 20))
      with (length data) by lia.
    rewrite firstn_app, Nat.sub_diag, firstn_all.
    change (firstn 0 _) with (@nil byte). rewrite app_nil_r.
    apply bool_decide_eq_true. exact Hhash.
Qed.

End IdBlock.
Lemma no_zero_byte (l : list byte) :
  forallb (fun c => negb (Byte.eqb c x00)) l = true -> ~ In x00 l.
Proof.
  rewrite forallb_forall. intros H Hin. apply H in Hin. discriminate.
Qed.

Lemma generateIdBlock_findId_witness :
  let data := id_data (fun _ => 12345) "api.example" in
  let block := generateIdBlock 64 (fun _ => 12345) "api.example" in
  length block = 4096%nat /\
  block = Qt.sha1 data ++ data ++ [x00] ++ repeat xff (4075 - length data) /\
  length (Qt.sha1 data) = 20%nat /\
  findId block = true.
Proof.
  apply (generateIdBlock_findId 64 ltac:(lia) (fun _ => 12345) "api.example").
  - apply no_zero_byte. vm_compute. reflexivity.
  - vm_compute. lia.
Defined.

(** C4 as stated fails: a long host name gives a block of more than 4096
    bytes, and a zero character in the host name gives a block that [findId]
    rejects. *)
Lemma generateIdBlock_long_or_zero_hostname :
  length (generateIdBlock 64 (fun _ => 12345) long_hostname) = 4161%nat /\
  findId (generateIdBlock 64 (fun _ => 12345) zero_hostname) = false.
Proof. split; vm_compute; reflexivity. Qed.

(** ** Flash parameter strings *)

Section FlashParamProofs.

Local Open Scope string_scope.
Local Open Scope Z_scope.

Lemma lookup_outside (l : list (string * Z)) (key : string) :
  ~ In key (map fst l) -> (list_to_map l : gmap string Z) !! key = None.
Proof.
  intros Hnot. apply not_elem_of_list_to_map_1.
  intros Hin. apply Hnot. now apply list_elem_of_In.
Qed.

(** C8: a triple from the alphabets parses to [(m << 8) | (s << 4) | f]; a
    string without a comma parses as the integer [QString::toInt] reads in it,
    masked to its low 16 bits; a component outside its alphabet, and any number
    of parts other than 1 or 3, is an INVALID_ARGUMENT error. *)
Theorem flashParamsFromString_spec :
  (forall mode size freq m s f,
      In (mode, m) mode_alphabet -> In (size, s) size_alphabet ->
      In (freq, f) freq_alphabet ->
      flashParamsFromString (triple mode size freq)
      = Value (Z.lor (Z.lor (Z.shiftl m 8) (Z.shiftl s 4)) f)) /\
  (forall str r,
      length (Qt.split "," str) = 1%nat -> Qt.toInt str = Some r ->
      flashParamsFromString str = Value (Z.land r 0xffff) /\
      Z.land r 0xffff = r mod 2 ^ 16) /\
  (forall str,
      length (Qt.split "," str) = 1%nat -> Qt.toInt str = None ->
      exists message, flashParamsFromString str = Status INVALID_ARGUMENT message) /\
  (forall str part0 part1 part2,
      Qt.split "," str = [part0; part1; part2] ->
      ~ In part0 (map fst mode_alphabet) \/ ~ In part1 (map fst size_alphabet) \/
      ~ In part2 (map fst freq_alphabet) ->
      exists message, flashParamsFromString str = Status INVALID_ARGUMENT message) /\
  (forall str,
      length (Qt.split "," str) <> 1%nat -> length (Qt.split "," str) <> 3%nat ->
      exists message, flashParamsFromString str = Status INVALID_ARGUMENT message).
Proof.
  split; [|split; [|split; [|split]]].
  - intros mode size freq m s f Hm Hs Hf.
    simpl in Hm, Hs, Hf.
    repeat match goal with
           | H : _ \/ _ |- _ => destruct H as [H|H]
           | H : (_, _) = (_, _) |- _ => injection H as <- <-
           | H : False |- _ => destruct H
           end; vm_compute; reflexivity.
  - intros str r Hparts Hint. unfold flashParamsFromString.
    destruct (Qt.split "," str) as [|p [|q ps]]; try discriminate.
    rewrite Hint. split; [reflexivity|].
    change 0xffff with (Z.ones 16). apply Z.land_ones. lia.
  - intros str Hparts Hint. unfold flashParamsFromString.
    destruct (Qt.split "," str) as [|p [|q ps]]; try discriminate.
    rewrite Hint. eauto.
  - intros str part0 part1 part2 Hparts Hout. unfold flashParamsFromString.
    rewrite Hparts.
    destruct (flashMode !! part0) as [m|] eqn:Em; [|eauto].
    destruct (flashSize !! part1) as [s|] eqn:Es; [|eauto].
    destruct (flashFreq !! part2) as [f|] eqn:Ef; [|eauto].
    exfalso. destruct Hout as [H|[H|H]].
    + apply (lookup_outside mode_alphabet) in H. unfold flashMode in Em.
      unfold mode_alphabet in H. congruence.
    + apply (lookup_outside size_alphabet) in H. unfold flashSize in Es.
      unfold size_alphabet in H. congruence.
    + apply (lookup_outside freq_alphabet) in H. unfold flashFreq in Ef.
      unfold freq_alphabet in H. congruence.
  - intros str H1 H3. unfold flashParamsFromString.
    destruct (Qt.split "," str) as [|p0 [|p1 [|p2 [|p3 ps]]]]; simpl in H1, H3;
      try congruence; eauto.
Qed.

Lemma flashParamsFromString_spec_witness :
  flashParamsFromString "dio,32m,40m" = Value 0x0240 /\
  flashParamsFromString "0x0220" = Value 0x0220 /\
  (exists message, flashParamsFromString "dio,64m,40m" = Status INVALID_ARGUMENT message) /\
  (exists message, flashParamsFromString "dio,32m" = Status INVALID_ARGUMENT message).
Proof.
  destruct flashParamsFromString_spec as (Htriple & Hnumber & _ & Hpart & Hcount).
  split; [|split; [|split]].
  - apply (Htriple "dio" "32m" "40m" 2 4 0); simpl; tauto.
  - apply (Hnumber "0x0220" 0x0220); reflexivity.
  - apply (Hpart "dio,64m,40m" "dio" "64m" "40m"); [reflexivity|].
    right; left. simpl. intros H.
    repeat (destruct H as [H|H]; [discriminate H|]). exact H.
  - apply (Hcount "dio,32m"); simpl; lia.
Defined.

End FlashParamProofs.

(** ** Loading images *)

Lemma load_files_loadable (l : list (string * Z * list byte))
    (files : list QFileInfo) (images : gmap Z (list byte)) :
  load_files (loadable_files l ++ files) images = load_files files (stored l images).
Proof.
  revert images; induction l as [|[[name addr] bytes] l IH]; intros images;
    [reflexivity|].
  simpl. rewrite Z.eqb_refl. simpl. apply IH.
Qed.

Lemma load_eq (file : QFileInfo) (files : list QFileInfo) (self : FlasherImpl) :
  load (Some (file :: files)) self
  = (fst (load_files (file :: files) ∅),
     set_images_ (snd (load_files (file :: files) ∅)) self).
Proof.
  unfold load. rewrite bind_eq. cbn [modify fst snd].
  rewrite bind_eq. cbn [get fst snd images_ set_images_].
  destruct (load_files (file :: files) ∅) as [r images].
  rewrite bind_eq. reflexivity.
Qed.

(** C9: [load] empties the map first, and when a later file fails on its name
    or on opening, the error is returned with the images of the files before
    it in the map; only a size mismatch empties the map again.  So the map
    after a failed load need neither be the previous one nor empty. *)
Theorem load_not_atomic :
  (forall self : FlasherImpl,
      load None self = (DirectoryDoesNotExist, set_images_ ∅ self) /\
      load (Some []) self = (NoFilesToFlash, set_images_ ∅ self)) /\
  (forall (before : list (string * Z * list byte)) (bad : QFileInfo)
          (rest : list QFileInfo) (self : FlasherImpl),
      baseName_toULong bad = None ->
      load (Some (loadable_files before ++ bad :: rest)) self
      = (NotAValidAddress (fileName bad), set_images_ (stored before ∅) self)) /\
  (forall (before : list (string * Z * list byte)) (bad : QFileInfo)
          (rest : list QFileInfo) (self : FlasherImpl) (addr : Z),
      baseName_toULong bad = Some addr -> open_readAll bad = None ->
      load (Some (loadable_files before ++ bad :: rest)) self
      = (FailedToOpen (fileName bad), set_images_ (stored before ∅) self)) /\
  (forall (before : list (string * Z * list byte)) (bad : QFileInfo)
          (rest : list QFileInfo) (self : FlasherImpl) (addr : Z) (bytes : list byte),
      baseName_toULong bad = Some addr -> open_readAll bad = Some bytes ->
      Z.of_nat (length bytes) <> file_size bad ->
      load (Some (loadable_files before ++ bad :: rest)) self
      = (SizeMismatch (fileName bad) (file_size bad) (Z.of_nat (length bytes)),
         set_images_ ∅ self)) /\
  (exists (dir : list QFileInfo) (self : FlasherImpl),
      fst (load (Some dir) self) <> LoadOk /\
      images_ (snd (load (Some dir) self)) <> images_ self /\
      images_ (snd (load (Some dir) self)) <> ∅).
Proof.
  assert (Hload : forall before bad rest self,
             load (Some (loadable_files before ++ bad :: rest)) self
             = (fst (load_files (bad :: rest) (stored before ∅)),
                set_images_ (snd (load_files (bad :: rest) (stored before ∅))) self)).
  { intros before bad rest self.
    destruct (loadable_files before ++ bad :: rest) as [|file files] eqn:E.
    - now destruct (loadable_files before).
    - rewrite load_eq, <- E. now rewrite load_files_loadable. }
  split; [intros self; split; reflexivity|].
  split; [|split; [|split]].
  - intros before bad rest self Haddr. rewrite Hload. simpl. now rewrite Haddr.
  - intros before bad rest self addr Haddr Hopen. rewrite Hload. simpl.
    now rewrite Haddr, Hopen.
  - intros before bad rest self addr bytes Haddr Hopen Hsize. rewrite Hload. simpl.
    rewrite Haddr, Hopen.
    destruct (Z.eqb_spec (Z.of_nat (length bytes)) (file_size bad)); [contradiction|].
    reflexivity.
  - exists dir_with_bad_name, flasher_with_image.
    unfold dir_with_bad_name. rewrite Hload. simpl.
    split; [discriminate|]. split.
    + intros H. apply (f_equal (fun m => m !! 0)) in H.
      vm_compute in H. discriminate.
    + intros H. apply (f_equal (fun m => m !! 0)) in H.
      vm_compute in H. discriminate.
Qed.

Lemma load_not_atomic_witness :
  load (Some dir_with_bad_name) flasher_with_image
  = (NotAValidAddress "0xnope.bin",
     set_images_ (stored [("0x00000.bin"%string, 0, hex "E900AABB")] ∅)
       flasher_with_image).
Proof.
  apply (proj1 (proj2 load_not_atomic)
           [("0x00000.bin"%string, 0, hex "E900AABB")]
           (mkQFileInfo "0xnope.bin" None (Some []) 0) []).
  reflexivity.
Defined.

(** ** Whole runs against a scripted device *)

(** C1, the failing run: the device's flash params are 02 90, read
    successfully, and the boot image E9 00 AA BB goes out and stays unpatched,
    because the params are combined through signed [char]s into a negative
    [flashParams]. *)
Theorem run_preserve_high_byte_not_copied :
  let booted := snd (on_port rebootIntoBootloader preserving_flasher) in
  let finished := snd (run 64 no_qrand preserving_flasher) in
  fst (readFlashParamsLocked 64 booted) = hex "0290" /\
  fst (run_flashParams 64 booted) = Some (-112) /\
  images_ finished !! 0 = Some (hex "E900AABB") /\
  w_trace (port_ finished)
  = reboot_into_bootloader_pulse ++ wire sync_frame
    ++ read_params_frames
    ++ write_image_frames (hex "E900AABB")
    ++ wire flash_end_frame ++ [EmitDone AllDone true].
Proof. vm_compute. repeat split; reflexivity. Qed.

Lemma run_final_step_witness :
  let booted := snd (on_port rebootIntoBootloader dio_flasher) in
  let flashed := snd (run_flash 64 no_qrand booted) in
  run 64 no_qrand dio_flasher
  = (tt, set_port_
           (after (reboot_into_firmware_pulse ++ [EmitDone AllDone true]) (port_ flashed))
           flashed).
Proof.
  apply (proj1 (run_final_step 64 no_qrand dio_flasher
                  (snd (on_port rebootIntoBootloader dio_flasher))
                  (snd (run_flash 64 no_qrand
                          (snd (on_port rebootIntoBootloader dio_flasher))))
                  0x0240
                  ltac:(vm_compute; reflexivity) ltac:(vm_compute; reflexivity)));
    reflexivity.
Defined.

Lemma leaveFlashingMode_failure_witness :
  let booted := snd (on_port rebootIntoBootloader plain_flasher) in
  let flashed := snd (run_flash 64 no_qrand booted) in
  let w2 := snd (readResponse 10000 (sent flash_end_frame (port_ flashed))) in
  leaveFlashingModeLocked flashed = (false, set_port_ w2 flashed) /\
  run 64 no_qrand plain_flasher
  = (tt, set_port_ (after [EmitDone FailedToLeaveFlashingMode false] w2) flashed).
Proof.
  intros booted flashed w2.
  pose proof (leaveFlashingMode_failure 64 no_qrand plain_flasher booted flashed
                0x0040 ltac:(vm_compute; reflexivity)) as [Hleave Hrun].
  split; [exact Hleave|].
  apply Hrun; [vm_compute; reflexivity | vm_compute; reflexivity | discriminate].
Defined.

Lemma sync_all_eight_valid_witness : fst (sync third_response_invalid) = false.
Proof.
  apply (proj1 (proj2 (sync_all_eight_valid third_response_invalid)) 2%nat
           (parseResponse (hex "0108")));
    vm_compute; reflexivity.
Defined.


(** * Further properties of the port-level code *)

(** ** SLIP codec: frames that do not end well *)

(** The frame loop on stuffed bytes, whatever follows them. *)
Lemma SLIP_read_frame_app (b ret : list byte) (rx : list rx_item) :
  SLIP.read_frame ret (map RxByte (flat_map SLIP.stuff b) ++ rx)
  = SLIP.read_frame (ret ++ b) rx.
Proof.
  revert ret; induction b as [|c b IH]; intros ret.
  - simpl. now rewrite app_nil_r.
  - replace (ret ++ c :: b) with ((ret ++ [c]) ++ b) by now rewrite <- app_assoc.
    rewrite <- IH. destruct c; reflexivity.
Qed.

Lemma SLIP_skip_prefix_none (junk : list byte) :
  Forall (fun c => c <> xc0) junk ->
  SLIP.skip_prefix (map RxByte junk) = (false, []) /\
  forall rx, SLIP.skip_prefix (map RxByte junk ++ RxNone :: rx) = (false, rx).
Proof.
  induction 1 as [|c junk Hc _ [IH1 IH2]]; [split; reflexivity|].
  split; [|intros rx]; simpl; [rewrite IH1|rewrite IH2];
    destruct c; try reflexivity; now elim Hc.
Qed.

(** [SLIP_read] returns what it has when the frame does not end well: on a
    read that finds nothing, on the end of input, and on an escape followed by
    anything but 0xDC or 0xDD (that byte is consumed); and it returns nothing
    when no delimiter ever comes. *)
Theorem SLIP_decode_partial (b : list byte) (rx : list rx_item) :
  SLIP.decode (RxByte xc0 :: map RxByte (flat_map SLIP.stuff b) ++ RxNone :: rx)
  = (b, rx) /\
  SLIP.decode (RxByte xc0 :: map RxByte (flat_map SLIP.stuff b)) = (b, []) /\
  (forall c, c <> xdc -> c <> xdd ->
     SLIP.decode (RxByte xc0 :: map RxByte (flat_map SLIP.stuff b)
                    ++ RxByte xdb :: RxByte c :: rx) = (b, rx)) /\
  (forall junk, Forall (fun c => c <> xc0) junk ->
     SLIP.decode (map RxByte junk) = ([], []) /\
     SLIP.decode (map RxByte junk ++ RxNone :: rx) = ([], rx)).
Proof.
  unfold SLIP.decode. cbn [SLIP.skip_prefix].
  repeat split.
  - now rewrite SLIP_read_frame_app.
  - rewrite <- (app_nil_r (map RxByte _)). now rewrite SLIP_read_frame_app.
  - intros c Hdc Hdd. rewrite SLIP_read_frame_app. simpl.
    destruct c; try reflexivity; contradiction.
  - now rewrite (proj1 (SLIP_skip_prefix_none junk H)).
  - now rewrite (proj2 (SLIP_skip_prefix_none junk H)).
Qed.

Lemma SLIP_decode_partial_witness :
  SLIP.decode (RxByte xc0 :: map RxByte (flat_map SLIP.stuff (hex "0108"))
                 ++ RxByte xdb :: RxByte x00 :: [RxByte x55])
  = (hex "0108", [RxByte x55]).
Proof.
  apply (proj1 (proj2 (proj2 (SLIP_decode_partial (hex "0108") [RxByte x55]))) x00);
    discriminate.
Defined.

(** Reading back a frame that was SLIP-encoded, through the port. *)
Lemma SLIP_read_encoded (frame : list byte) (rx : list rx_item)
    (trace : list event) (timeout : Z) :
  SLIP.read timeout (mkWorld (map RxByte (SLIP.encode frame) ++ rx) trace)
  = (frame, mkWorld rx trace).
Proof.
  unfold SLIP.read. cbn [w_rx w_trace].
  replace (SLIP.decode (map RxByte (SLIP.encode frame) ++ rx)) with (frame, rx);
    [reflexivity|].
  unfold SLIP.decode, SLIP.encode. simpl.
  rewrite map_app, <- app_assoc. simpl.
  symmetry. apply SLIP_read_frame_stuffed.
Qed.

Lemma readResponse_encoded (frame : list byte) (rx : list rx_item)
    (trace : list event) (timeout : Z) :
  readResponse timeout (mkWorld (map RxByte (SLIP.encode frame) ++ rx) trace)
  = (parseResponse frame, mkWorld rx trace).
Proof. now rewrite readResponse_eq, SLIP_read_encoded. Qed.

(** ** Responses *)

Lemma uchar_range (c : byte) : 0 <= uchar_to_int c < 256.
Proof. unfold uchar_to_int. pose proof (Byte.to_N_bounded c). lia. Qed.

Lemma readRawData_exact (n : nat) (s rest : list byte) :
  length s = n -> readRawData n (s ++ rest) = s.
Proof.
  intros <-. unfold readRawData.
  rewrite firstn_app, Nat.sub_diag, firstn_all, length_app. simpl.
  replace (length s - (length s + length rest))%nat with 0%nat by lia.
  simpl. now rewrite !app_nil_r.
Qed.

Lemma readRawData_all (s : list byte) : readRawData (length s) s = s.
Proof.
  unfold readRawData. now rewrite firstn_all, Nat.sub_diag, app_nil_r.
Qed.

(** A response frame that is as its header says is returned field by field.
    The status bytes are taken from a body of exactly two bytes; a response
    with a longer body is ok whatever the body holds. *)
Theorem parseResponse_fields (cmd size0 size1 : byte) (val bdy : list byte) :
  length val = 4%nat ->
  Z.of_nat (length bdy)
  = Z.lor (uchar_to_int size0) (Z.shiftl (uchar_to_int size1) 8) ->
  (2 <= length bdy)%nat ->
  let resp := parseResponse (x01 :: cmd :: size0 :: size1 :: val ++ bdy) in
  valid resp = true /\ command resp = cmd /\ value resp = val /\ body resp = bdy /\
  (forall b0 b1, bdy = [b0; b1] ->
     status resp = b0 /\ lastError resp = b1 /\
     (ok resp = true <-> b0 = x00 /\ b1 = x00)) /\
  ((2 < length bdy)%nat -> ok resp = true).
Proof.
  intros Hval Hsize Hbody resp.
  assert (Hresp : resp = match bdy with
                         | [b0; b1] => mkResponse cmd val bdy b0 b1 true
                         | _ => mkResponse cmd val bdy x00 x00 true
                         end).
  { subst resp. unfold parseResponse.
    cbn [length]. rewrite length_app, Hval.
    destruct (Z.ltb_spec (Z.of_nat (S (S (S (S (4 + length bdy)))))) 10); [lia|].
    change (uchar_to_int x01 =? 1) with true. cbn [negb].
    rewrite <- Hsize, Nat2Z.id.
    rewrite (readRawData_exact 4 val bdy Hval).
    replace (skipn 4 (val ++ bdy)) with bdy
      by (rewrite <- Hval, skipn_app, Nat.sub_diag, skipn_all; reflexivity).
    now rewrite readRawData_all. }
  clearbody resp. subst resp.
  destruct bdy as [|b0 [|b1 [|b2 bdy]]]; simpl in Hbody; try lia;
    (do 4 (split; [reflexivity|])); split.
  - intros b0' b1' [= <- <-]. do 2 (split; [reflexivity|]).
    unfold ok. cbn [valid status lastError andb]. split.
    + intros H. apply andb_prop in H as [H0 H1].
      split; now apply Byte.byte_dec_bl.
    + intros [-> ->]. reflexivity.
  - simpl. lia.
  - intros b0' b1'. discriminate.
  - reflexivity.
Qed.

Lemma parseResponse_fields_witness :
  let resp := parseResponse (x01 :: x02 :: x04 :: x00 :: hex "00000000"
                               ++ hex "01060000") in
  valid resp = true /\ command resp = x02 /\ value resp = hex "00000000" /\
  body resp = hex "01060000" /\
  (forall b0 b1, hex "01060000" = [b0; b1] ->
     status resp = b0 /\ lastError resp = b1 /\
     (ok resp = true <-> b0 = x00 /\ b1 = x00)) /\
  ((2 < length (hex "01060000"))%nat -> ok resp = true).
Proof.
  apply (parseResponse_fields x02 x04 x00 (hex "00000000") (hex "01060000"));
    vm_compute; first [reflexivity | lia].
Defined.

Lemma writeCommand_eq (cmd : byte) (payload : list byte) (csum : byte) (w : World) :
  writeCommand cmd payload csum w = (tt, sent (command_frame cmd payload csum) w).
Proof. reflexivity. Qed.

(** A command frame is never taken for a response: a line that echoes what
    was sent does not give a valid response. *)
Theorem command_echo_invalid (cmd : byte) (payload : list byte) (csum : byte)
    (rx : list rx_item) (trace : list event) (timeout : Z) :
  let echo := map RxByte (SLIP.encode (command_frame cmd payload csum)) in
  readResponse timeout (mkWorld (echo ++ rx) trace)
  = (Response_init, mkWorld rx trace).
Proof.
  intros echo. subst echo. rewrite readResponse_encoded. f_equal.
  unfold parseResponse, command_frame.
  destruct (Z.of_nat _ <? 10); reflexivity.
Qed.

(** ** What the port-level code does to the port *)

Lemma port_only_ret {A : Type} (a : A) : port_only (ret a).
Proof. intros w. exists []. split; [now rewrite app_nil_r|constructor]. Qed.

Lemma port_only_bind {A B : Type} (m : State World A) (k : A -> State World B) :
  port_only m -> (forall a, port_only (k a)) -> port_only (bind m k).
Proof.
  intros Hm Hk w. rewrite bind_eq.
  destruct (Hm w) as (es1 & E1 & F1).
  destruct (Hk (fst (m w)) (snd (m w))) as (es2 & E2 & F2).
  exists (es1 ++ es2). split.
  - now rewrite E2, E1, app_assoc.
  - now apply Forall_app.
Qed.

Lemma port_only_emit (es : list event) : Forall port_event es -> port_only (emit es).
Proof. intros F w. now exists es. Qed.

Lemma port_only_SLIP_write (bytes : list byte) : port_only (SLIP.write bytes).
Proof.
  intros w. exists (map PutChar (SLIP.encode bytes)). split; [reflexivity|].
  apply Forall_forall. intros e He. apply list_elem_of_In, in_map_iff in He.
  now destruct He as (c & <- & _).
Qed.

Lemma port_only_SLIP_read (timeout : Z) : port_only (SLIP.read timeout).
Proof.
  intros w. exists []. split; [|constructor].
  unfold SLIP.read. destruct (SLIP.decode (w_rx w)). now rewrite app_nil_r.
Qed.

Create HintDb port_only.
#[local] Hint Resolve port_only_ret port_only_emit port_only_SLIP_write
  port_only_SLIP_read : port_only.

(** Goes through the binds and the branches of a port-level function. *)
Ltac port_only_step :=
  first
    [ apply port_only_bind; [|intros ?]
    | match goal with
      | |- port_only (if ?b then _ else _) => destruct b
      | |- port_only (match ?x with _ => _ end) => destruct x
      end
    | solve [auto with port_only]
    | solve [apply port_only_emit; repeat constructor] ].

Ltac port_only_tac := repeat port_only_step.

Lemma port_only_writeCommand (cmd : byte) (payload : list byte) (csum : byte) :
  port_only (writeCommand cmd payload csum).
Proof. unfold writeCommand. port_only_tac. Qed.

Lemma port_only_readResponse (timeout : Z) : port_only (readResponse timeout).
Proof. unfold readResponse. port_only_tac. Qed.

#[local] Hint Resolve port_only_writeCommand port_only_readResponse : port_only.

Lemma port_only_sync_loop (n : nat) : port_only (sync_loop n).
Proof. induction n; simpl; port_only_tac. Qed.

#[local] Hint Resolve port_only_sync_loop : port_only.

Lemma port_only_sync : port_only sync.
Proof. unfold sync. port_only_tac. Qed.

#[local] Hint Resolve port_only_sync : port_only.

Lemma port_only_trySync (attempts : nat) : port_only (trySync attempts).
Proof. induction attempts; simpl; port_only_tac. Qed.

#[local] Hint Resolve port_only_trySync : port_only.

Lemma port_only_rebootIntoBootloader : port_only rebootIntoBootloader.
Proof. unfold rebootIntoBootloader. port_only_tac. Qed.

Lemma port_only_rebootIntoFirmware : port_only rebootIntoFirmware.
Proof. unfold rebootIntoFirmware. port_only_tac. Qed.

Lemma port_only_read_register (addr : Z) : port_only (read_register addr).
Proof. unfold read_register. port_only_tac. Qed.

#[local] Hint Resolve port_only_rebootIntoBootloader port_only_rebootIntoFirmware
  port_only_read_register : port_only.

Lemma port_only_read_MAC : port_only read_MAC.
Proof. unfold read_MAC. port_only_tac. Qed.

#[local] Hint Resolve port_only_read_MAC : port_only.

(** ** Boot controller *)

Lemma after_responses_trace (n : nat) (w : World) :
  w_trace (after_responses n w) = w_trace w.
Proof.
  revert w; induction n as [|n IH]; intros w; [reflexivity|].
  simpl. pose proof (readResponse_world 200 w) as Hw.
  destruct (readResponse 200 w) as [resp w']. simpl in Hw. subst w'.
  destruct (valid resp); [now rewrite IH|reflexivity].
Qed.

(** A sync puts exactly the sync frame on the wire. *)
Lemma sync_trace (w : World) :
  w_trace (snd (sync w)) = w_trace w ++ wire sync_frame.
Proof.
  change (sync w) with (sync_loop 8 (sent sync_frame w)).
  rewrite sync_loop_spec. cbn [snd]. now rewrite after_responses_trace.
Qed.

Lemma trySync_trace (attempts : nat) (w : World) :
  exists k : nat,
    (k <= attempts)%nat /\
    w_trace (snd (trySync attempts w))
    = w_trace w ++ concat (repeat (wire sync_frame) k) /\
    (fst (trySync attempts w) = false -> k = attempts) /\
    (fst (trySync attempts w) = true -> (1 <= k)%nat).
Proof.
  revert w; induction attempts as [|n IH]; intros w.
  - exists 0%nat. split; [lia|]. split; [symmetry; apply app_nil_r|].
    split; [reflexivity|discriminate].
  - simpl. rewrite bind_eq. pose proof (sync_trace w) as Hsync.
    destruct (sync w) as [[] w1]; cbn [fst snd] in *; unfold ret; cbn [fst snd].
    + exists 1%nat. split; [lia|]. split.
      * rewrite Hsync.
        change (concat (repeat (wire sync_frame) 1)) with (wire sync_frame ++ []).
        now rewrite app_nil_r.
      * split; [discriminate|lia].
    + destruct (IH w1) as (k & Hk & Htrace & Hfalse & Htrue).
      exists (S k). split; [lia|]. split.
      * rewrite Htrace, Hsync, <- app_assoc.
        change (concat (repeat (wire sync_frame) (S k)))
          with (wire sync_frame ++ concat (repeat (wire sync_frame) k)).
        reflexivity.
      * split; [|lia]. intros H. f_equal. now apply Hfalse.
Qed.

Lemma rebootIntoBootloader_trace_aux (w : World) :
  exists k : nat,
    (1 <= k <= 3)%nat /\
    w_trace (snd (rebootIntoBootloader w))
    = w_trace w ++ reboot_into_bootloader_pulse
      ++ concat (repeat (wire sync_frame) k) /\
    (fst (rebootIntoBootloader w) = false -> k = 3%nat).
Proof.
  unfold rebootIntoBootloader. rewrite bind_eq. cbn [emit fst snd].
  fold reboot_into_bootloader_pulse.
  set (w1 := mkWorld (w_rx w) (w_trace w ++ reboot_into_bootloader_pulse)).
  destruct (trySync_trace 3 w1) as (k & Hk & Htrace & Hfalse & Htrue).
  exists k. rewrite Htrace. subst w1. cbn [w_trace]. rewrite <- app_assoc.
  split; [|split; [reflexivity|exact Hfalse]].
  destruct (fst (trySync 3 _)) eqn:E.
  - specialize (Htrue eq_refl). lia.
  - specialize (Hfalse eq_refl). lia.
Qed.

(** [rebootIntoBootloader] pulses the modem lines and then sends the sync
    frame at least once and at most three times, and nothing else; when it
    fails it has sent it three times. *)
Theorem rebootIntoBootloader_trace (w : World) :
  exists k : nat,
    (1 <= k <= 3)%nat /\
    w_trace (snd (rebootIntoBootloader w))
    = w_trace w ++ reboot_into_bootloader_pulse
      ++ concat (repeat (wire sync_frame) k) /\
    (fst (rebootIntoBootloader w) = false -> k = 3%nat).
Proof. exact (rebootIntoBootloader_trace_aux w). Qed.

(** ** Register reads *)

Lemma readRawData_length (n : nat) (s : list byte) : length (readRawData n s) = n.
Proof.
  unfold readRawData. rewrite length_app, length_firstn, repeat_length. lia.
Qed.

(** The value of a valid response has four bytes. *)
Lemma parseResponse_value_length (frame : list byte) :
  valid (parseResponse frame) = true -> length (value (parseResponse frame)) = 4%nat.
Proof.
  unfold parseResponse.
  destruct (Z.of_nat (length frame) <? 10); [discriminate|].
  destruct frame as [|direction [|cmd [|size0 [|size1 s]]]]; try discriminate.
  destruct (negb (uchar_to_int direction =? 1)); [discriminate|].
  intros _.
  assert (H := readRawData_length 4 s).
  now destruct (readRawData (Z.to_nat _) (skipn 4 s)) as [|b0 [|b1 [|b2 l]]].
Qed.

Lemma uchar_eqb (c d : byte) :
  (uchar_to_int c =? uchar_to_int d) = Byte.eqb c d.
Proof.
  apply Bool.eqb_prop.
  apply (forall_bytes2
           (fun c d => Bool.eqb (uchar_to_int c =? uchar_to_int d) (Byte.eqb c d))).
  vm_compute. reflexivity.
Qed.

Lemma read_register_eq (addr : Z) (w : World) :
  read_register addr w
  = let w1 := sent (read_register_frame addr) w in
    let resp := fst (readResponse 200 w1) in
    (if valid resp && Byte.eqb (command resp) x0a && Byte.eqb (status resp) x00
     then value resp else [],
     snd (readResponse 200 w1)).
Proof.
  unfold read_register. rewrite bind_eq.
  change (snd (writeCommand x0a (le32 addr) x00 w))
    with (sent (read_register_frame addr) w).
  cbv zeta. rewrite bind_eq.
  destruct (readResponse 200 (sent (read_register_frame addr) w)) as [resp w2].
  cbn [fst snd].
  change 0x0A with (uchar_to_int x0a). change 0 with (uchar_to_int x00).
  rewrite !uchar_eqb.
  destruct (valid resp); [|reflexivity].
  destruct (Byte.eqb (command resp) x0a); [|reflexivity].
  now destruct (Byte.eqb (status resp) x00).
Qed.

Lemma read_register_result_aux (addr : Z) :
  (forall w,
      (length (fst (read_register addr w)) = 0%nat \/
       length (fst (read_register addr w)) = 4%nat) /\
      w_trace (snd (read_register addr w))
      = w_trace w ++ wire (read_register_frame addr)) /\
  (forall (cmd status lastError : byte) (val : list byte) (rx : list rx_item)
          (trace : list event),
      length val = 4%nat ->
      read_register addr
        (mkWorld (map RxByte (SLIP.encode ([x01; cmd; x02; x00] ++ val
                                             ++ [status; lastError])) ++ rx) trace)
      = (if Byte.eqb cmd x0a && Byte.eqb status x00 then val else [],
         mkWorld rx (trace ++ wire (read_register_frame addr)))).
Proof.
  split.
  - intros w. rewrite read_register_eq. cbv zeta. cbn [fst snd]. split.
    + rewrite readResponse_eq. cbn [fst].
      destruct (valid _) eqn:Hvalid; [|now left].
      destruct (Byte.eqb _ x0a); [|now left].
      destruct (Byte.eqb _ x00); [|now left].
      right. cbn [andb]. now apply parseResponse_value_length.
    + now rewrite readResponse_world.
  - intros cmd status lastError val rx trace Hval.
    rewrite read_register_eq. cbv zeta. unfold sent. cbn [w_rx w_trace].
    rewrite readResponse_encoded. cbn [fst snd].
    destruct val as [|v0 [|v1 [|v2 [|v3 [|v4 val]]]]]; try discriminate.
    reflexivity.
Qed.

(** [read_register] sends the read-register frame and returns either nothing
    or four bytes.  It returns the value of a response exactly when the
    response echoes command 0x0A with status 0; the last-error byte is not
    looked at. *)
Theorem read_register_result (addr : Z) :
  (forall w,
      (length (fst (read_register addr w)) = 0%nat \/
       length (fst (read_register addr w)) = 4%nat) /\
      w_trace (snd (read_register addr w))
      = w_trace w ++ wire (read_register_frame addr)) /\
  (forall (cmd status lastError : byte) (val : list byte) (rx : list rx_item)
          (trace : list event),
      length val = 4%nat ->
      read_register addr
        (mkWorld (map RxByte (SLIP.encode ([x01; cmd; x02; x00] ++ val
                                             ++ [status; lastError])) ++ rx) trace)
      = (if Byte.eqb cmd x0a && Byte.eqb status x00 then val else [],
         mkWorld rx (trace ++ wire (read_register_frame addr)))).
Proof. exact (read_register_result_aux addr). Qed.

Lemma read_register_result_witness :
  read_register 0x3ff00050
    (mkWorld (map RxByte (SLIP.encode ([x01; x0a; x02; x00] ++ hex "11223344"
                                         ++ [x00; x07])) ++ [RxNone]) [])
  = (hex "11223344", mkWorld [RxNone] ([] ++ wire (read_register_frame 0x3ff00050))).
Proof.
  apply (proj2 (read_register_result 0x3ff00050) x0a x00 x07 (hex "11223344")).
  reflexivity.
Defined.

Lemma read_MAC_eq (w : World) :
  read_MAC w
  = let r1 := read_register 0x3ff00050 w in
    let r2 := read_register 0x3ff00054 (snd r1) in
    (if (length (fst r1) =? 4)%nat && (length (fst r2) =? 4)%nat
     then MAC_of (fst r1) (fst r2) else [],
     snd r2).
Proof.
  unfold read_MAC. rewrite bind_eq.
  destruct (read_register 0x3ff00050 w) as [mac1 w1]. cbn [fst snd].
  rewrite bind_eq.
  destruct (read_register 0x3ff00054 w1) as [mac2 w2]. cbv zeta. cbn [fst snd].
  destruct (length mac1 =? 4)%nat; [|reflexivity].
  destruct (length mac2 =? 4)%nat; [|reflexivity].
  cbn [negb orb andb]. unfold MAC_of.
  destruct (nth 2 mac2 x00); reflexivity.
Qed.

Lemma MAC_of_length (mac1 mac2 : list byte) :
  length (MAC_of mac1 mac2) = 0%nat \/ length (MAC_of mac1 mac2) = 6%nat.
Proof. unfold MAC_of. destruct (nth 2 mac2 x00); auto. Qed.

Lemma read_MAC_length (w : World) :
  length (fst (read_MAC w)) = 0%nat \/ length (fst (read_MAC w)) = 6%nat.
Proof.
  rewrite read_MAC_eq. cbv zeta. cbn [fst].
  destruct (_ && _); [apply MAC_of_length|now left].
Qed.

(** [read_MAC] reads the two MAC registers, whatever the first read gives,
    and returns nothing or six bytes.  With both registers read it returns
    18 FE 34 or AC D0 74 for byte 2 of the second register being 0 or 1,
    followed by bytes 1 and 0 of the second register and byte 3 of the first;
    any other byte 2 gives nothing. *)
Theorem read_MAC_result :
  (forall w,
      (length (fst (read_MAC w)) = 0%nat \/ length (fst (read_MAC w)) = 6%nat) /\
      w_trace (snd (read_MAC w))
      = w_trace w ++ wire (read_register_frame 0x3ff00050)
        ++ wire (read_register_frame 0x3ff00054)) /\
  (forall (mac1 mac2 : list byte) (e1 e2 : byte) (rx : list rx_item)
          (trace : list event),
      length mac1 = 4%nat -> length mac2 = 4%nat ->
      fst (read_MAC (mkWorld (register_response mac1 x00 e1
                                ++ register_response mac2 x00 e2 ++ rx) trace))
      = MAC_of mac1 mac2 /\
      w_rx (snd (read_MAC (mkWorld (register_response mac1 x00 e1
                                      ++ register_response mac2 x00 e2 ++ rx) trace)))
      = rx).
Proof.
  split.
  - intros w. split; [apply read_MAC_length|].
    rewrite read_MAC_eq. cbv zeta. cbn [snd].
    rewrite !read_register_eq. cbv zeta. cbn [fst snd].
    rewrite !readResponse_world. unfold sent. cbn [w_trace w_rx].
    now rewrite <- app_assoc.
  - intros mac1 mac2 e1 e2 rx trace H1 H2.
    rewrite read_MAC_eq. cbv zeta. unfold register_response.
    pose proof (proj2 (read_register_result_aux 0x3ff00050) x0a x00 e1 mac1) as R1.
    pose proof (proj2 (read_register_result_aux 0x3ff00054) x0a x00 e2 mac2) as R2.
    rewrite (R1 _ _ H1). cbn [fst snd]. rewrite (R2 _ _ H2). cbn [fst snd w_rx].
    change (Byte.eqb x0a x0a && Byte.eqb x00 x00) with true. cbv iota.
    rewrite H1, H2. split; reflexivity.
Qed.

Lemma read_MAC_result_witness :
  fst (read_MAC (mkWorld (register_response (hex "000000ab") x00 x00
                            ++ register_response (hex "cdef0100") x00 x00 ++ []) []))
  = hex "acd074efcdab".
Proof.
  apply (proj2 read_MAC_result (hex "000000ab") (hex "cdef0100") x00 x00 [] []);
    reflexivity.
Defined.

(** ** Probing *)

Lemma toHex_length (b : list byte) : length (Qt.toHex b) = (2 * length b)%nat.
Proof.
  unfold Qt.toHex. induction b as [|c b IH]; [reflexivity|].
  cbn [flat_map length app]. rewrite IH. lia.
Qed.

(** [probe] succeeds exactly when the four calls that set up and open the
    port succeed, the bootloader answers, and a MAC address of six bytes is
    read; when the set-up fails it does nothing to the port. *)
Theorem probe_result (port : PortSetup) (w : World) :
  (fst (probe port w) = true <->
   setBaudRate port = true /\ setParity port = true /\
   setFlowControl port = true /\ open port = true /\
   fst (rebootIntoBootloader w) = true /\
   length (fst (read_MAC (snd (rebootIntoBootloader w)))) = 6%nat) /\
  (setBaudRate port && setParity port && setFlowControl port && open port = false ->
   probe port w = (false, w)).
Proof.
  unfold probe.
  destruct (setBaudRate port), (setParity port), (setFlowControl port), (open port);
    cbn [negb andb];
    try (split; [split; [discriminate | intros (? & ? & ? & ? & _); discriminate]
                |reflexivity]).
  split; [|discriminate].
  rewrite bind_eq.
  destruct (rebootIntoBootloader w) as [[] w1]; cbn [fst snd negb].
  - rewrite bind_eq. cbv zeta.
    pose proof (read_MAC_length w1) as Hlen.
    destruct (read_MAC w1) as [mac w2]. cbn [fst snd] in *.
    pose proof (toHex_length mac) as Hhex.
    destruct (Nat.ltb_spec (length (Qt.toHex mac)) 6); cbn [ret fst]; split;
      try discriminate; try (intros _; repeat split; lia).
    intros (_ & _ & _ & _ & _ & H6). lia.
  - split; [discriminate|]. intros (_ & _ & _ & _ & H & _). discriminate.
Qed.

Lemma probe_result_witness :
  probe (mkPortSetup true true false true) (mkWorld synced [])
  = (false, mkWorld synced []).
Proof.
  apply (proj2 (probe_result (mkPortSetup true true false true) (mkWorld synced []))).
  reflexivity.
Defined.

(** ** Presence of an ID *)

Lemma index_from_none (c : byte) (pos : Z) (l : list byte) :
  ~ In c l -> Qt.index_from c pos l = -1.
Proof.
  revert pos; induction l as [|x l IH]; intros pos Hnot; [reflexivity|].
  simpl. destruct (Byte.eqb x c) eqn:E.
  - apply Byte.byte_dec_bl in E. elim Hnot. now left.
  - apply IH. intros Hin. apply Hnot. now right.
Qed.

Lemma index_from_found (c : byte) (pos : Z) (l : list byte) :
  Qt.index_from c pos l <> -1 -> 0 <= pos ->
  exists pre post,
    l = pre ++ c :: post /\ ~ In c pre /\
    Qt.index_from c pos l = pos + Z.of_nat (length pre).
Proof.
  revert pos; induction l as [|x l IH]; intros pos Hfound Hpos;
    [now elim Hfound|].
  simpl in *. destruct (Byte.eqb x c) eqn:E.
  - apply Byte.byte_dec_bl in E. subst x. exists [], l.
    split; [reflexivity|]. split; [intros []|]. simpl. lia.
  - destruct (IH (pos + 1) Hfound ltac:(lia)) as (pre & post & -> & Hnot & Hidx).
    exists (x :: pre), post. split; [reflexivity|]. split.
    + intros [->|Hin]; [|contradiction].
      now rewrite (Byte.byte_dec_lb eq_refl) in E.
    + rewrite Hidx. simpl length. lia.
Qed.

(** [findId] accepts exactly the blocks that start with the SHA-1 of a payload
    without zero bytes, followed by that payload and a zero byte; what comes
    after the zero byte is not looked at. *)
Theorem findId_iff (r : list byte) :
  findId r = true <->
  exists payload rest,
    ~ In x00 payload /\ r = Qt.sha1 payload ++ payload ++ x00 :: rest.
Proof.
  unfold findId. cbv zeta. unfold Qt.indexOf, Qt.mid. split.
  - destruct (Z.ltb_spec (Qt.index_from x00 (Z.of_nat 20) (skipn 20 r)) 0)
      as [|Hge]; [discriminate|].
    destruct (index_from_found x00 (Z.of_nat 20) (skipn 20 r) ltac:(lia) ltac:(lia))
      as (pre & post & Hskip & Hnot & Hidx).
    rewrite Hidx, Hskip.
    replace (Z.to_nat (Z.of_nat 20 + Z.of_nat (length pre) - 20)) with (length pre)
      by lia.
    rewrite firstn_app, Nat.sub_diag, firstn_all.
    change (firstn 0 (x00 :: post)) with (@nil byte). rewrite app_nil_r.
    intros Hhash. apply bool_decide_eq_true in Hhash.
    exists pre, post. split; [exact Hnot|].
    rewrite <- Hhash, <- Hskip. symmetry. apply firstn_skipn.
  - intros (payload & rest & Hnot & ->).
    pose proof (sha1_length payload) as Hsha.
    remember (Qt.sha1 payload) as hash eqn:Hhash.
    assert (Hskip : skipn 20 (hash ++ payload ++ x00 :: rest) = payload ++ x00 :: rest).
    { rewrite <- Hsha, skipn_app, Nat.sub_diag, skipn_all. reflexivity. }
    assert (Htake : firstn 20 (hash ++ payload ++ x00 :: rest) = hash).
    { rewrite <- Hsha, firstn_app, Nat.sub_diag, firstn_all. apply app_nil_r. }
    rewrite Hskip, Htake, (index_from_absent x00 _ payload _ Hnot).
    destruct (Z.ltb_spec (Z.of_nat 20 + Z.of_nat (length payload)) 0); [lia|].
    replace (Z.to_nat (Z.of_nat 20 + Z.of_nat (length payload) - 20))
      with (length payload) by lia.
    rewrite firstn_app, Nat.sub_diag, firstn_all.
    change (firstn 0 _) with (@nil byte). rewrite app_nil_r.
    apply bool_decide_eq_true. exact Hhash.
Qed.

(** A block without a zero byte at or after offset 20 holds no ID: so an
    erased block of 0xFF bytes, and any block of at most 20 bytes. *)
Theorem findId_no_terminator (r : list byte) :
  (~ In x00 (skipn 20 r) -> findId r = false) /\
  (forall n, findId (repeat xff n) = false) /\
  ((length r <= 20)%nat -> findId r = false).
Proof.
  assert (H : forall r, ~ In x00 (skipn 20 r) -> findId r = false).
  { intros r' Hnot. unfold findId, Qt.indexOf. cbv zeta.
    now rewrite (index_from_none x00 _ _ Hnot). }
  split; [apply H|]. split.
  - intros n. apply H. intros Hin.
    apply list_elem_of_In, (subseteq_drop 20), list_elem_of_In, repeat_spec in Hin.
    discriminate.
  - intros Hlen. apply H. rewrite skipn_all2 by exact Hlen. intros [].
Qed.

Lemma findId_no_terminator_witness : findId (hex "00112233") = false.
Proof.
  apply (proj2 (proj2 (findId_no_terminator (hex "00112233")))). simpl. lia.
Defined.

(** * Further properties of the flasher *)

(** ** What the methods change *)

Section Keeps.

Variable R : FlasherImpl -> FlasherImpl -> Prop.
Hypothesis R_refl : forall s, R s s.
Hypothesis R_trans : forall s1 s2 s3, R s1 s2 -> R s2 s3 -> R s1 s3.

Lemma keeps_ret {A : Type} (a : A) : keeps R (ret a).
Proof. intros s. apply R_refl. Qed.

Lemma keeps_get : keeps R get.
Proof. intros s. apply R_refl. Qed.

Lemma keeps_bind {A B : Type} (m : State FlasherImpl A)
    (k : A -> State FlasherImpl B) :
  keeps R m -> (forall a, keeps R (k a)) -> keeps R (bind m k).
Proof.
  intros Hm Hk s. rewrite bind_eq.
  exact (R_trans _ _ _ (Hm s) (Hk (fst (m s)) (snd (m s)))).
Qed.

End Keeps.

Lemma port_step_refl (s : FlasherImpl) : port_step s s.
Proof.
  split; [now destruct s|]. exists []. split; [now rewrite app_nil_r|constructor].
Qed.

Lemma port_step_trans (s1 s2 s3 : FlasherImpl) :
  port_step s1 s2 -> port_step s2 s3 -> port_step s1 s3.
Proof.
  intros [E1 (es1 & T1 & F1)] [E2 (es2 & T2 & F2)]. split.
  - rewrite E2 at 1. rewrite E1. reflexivity.
  - exists (es1 ++ es2). split; [now rewrite T2, T1, app_assoc|now apply Forall_app].
Qed.

Lemma io_step_refl (s : FlasherImpl) : io_step s s.
Proof.
  split; [now destruct s|]. exists []. split; [now rewrite app_nil_r|constructor].
Qed.

Lemma io_step_trans (s1 s2 s3 : FlasherImpl) :
  io_step s1 s2 -> io_step s2 s3 -> io_step s1 s3.
Proof.
  intros [E1 (es1 & T1 & F1)] [E2 (es2 & T2 & F2)]. split.
  - rewrite E2 at 1. rewrite E1. reflexivity.
  - exists (es1 ++ es2). split; [now rewrite T2, T1, app_assoc|now apply Forall_app].
Qed.

Lemma port_event_no_done (e : event) : port_event e -> no_done e.
Proof. now destruct e. Qed.

Lemma port_step_io_step (s s' : FlasherImpl) : port_step s s' -> io_step s s'.
Proof.
  intros [E (es & T & F)]. split.
  - rewrite E. now destruct s.
  - exists es. split; [exact T|].
    eapply Forall_impl; [exact F|]. exact port_event_no_done.
Qed.

Lemma keeps_port_io {A : Type} (m : State FlasherImpl A) :
  keeps port_step m -> keeps io_step m.
Proof. intros H s. apply port_step_io_step, H. Qed.

Lemma keeps_on_port {A : Type} (m : State World A) :
  port_only m -> keeps port_step (on_port m).
Proof.
  intros Hm s. rewrite on_port_eq. cbn [snd]. split; [reflexivity|].
  exact (Hm (port_ s)).
Qed.

Lemma keeps_emit_signal (e : event) : no_done e -> keeps io_step (emit_signal e).
Proof.
  intros He s. split; [now destruct s|].
  exists [e]. split; [reflexivity|]. now constructor.
Qed.

Lemma keeps_set_written_count (f : FlasherImpl -> Z) :
  keeps io_step (modify (fun self => set_written_count_ (f self) self)).
Proof.
  intros s. split; [now destruct s|].
  exists []. split; [symmetry; apply app_nil_r|constructor].
Qed.

Create HintDb keeps.
#[local] Hint Resolve keeps_on_port keeps_emit_signal keeps_set_written_count
  keeps_port_io : keeps.
#[local] Hint Extern 1 (keeps port_step (ret _)) =>
  apply (keeps_ret port_step port_step_refl) : keeps.
#[local] Hint Extern 1 (keeps io_step (ret _)) =>
  apply (keeps_ret io_step io_step_refl) : keeps.
#[local] Hint Extern 1 (keeps port_step get) =>
  apply (keeps_get port_step port_step_refl) : keeps.
#[local] Hint Extern 1 (keeps io_step get) =>
  apply (keeps_get io_step io_step_refl) : keeps.
#[local] Hint Extern 1 (no_done _) => exact I : keeps.

(** Goes through the binds and the branches of a method. *)
Ltac keeps_step :=
  first
    [ apply (keeps_bind port_step port_step_trans); [|intros ?]
    | apply (keeps_bind io_step io_step_trans); [|intros ?]
    | match goal with
      | |- keeps _ (if ?b then _ else _) => destruct b
      | |- keeps _ (match ?x with _ => _ end) => destruct x
      end
    | solve [auto with keeps port_only] ].

Ltac keeps_tac := repeat keeps_step.

Section MethodsKeep.

Variable ulong_bits : Z.
Variable qrand : nat -> Z.

Lemma keeps_writeFlashStartLocked (addr blocks : Z) :
  keeps port_step (writeFlashStartLocked ulong_bits addr blocks).
Proof. unfold writeFlashStartLocked. keeps_tac. Qed.

Lemma keeps_writeFlashBlockLocked (seq : Z) (bytes : list byte) :
  keeps port_step (writeFlashBlockLocked seq bytes).
Proof. unfold writeFlashBlockLocked. keeps_tac. Qed.

Lemma keeps_leaveFlashingModeLocked : keeps port_step leaveFlashingModeLocked.
Proof. unfold leaveFlashingModeLocked. keeps_tac. Qed.

Hint Resolve keeps_writeFlashStartLocked keeps_writeFlashBlockLocked
  keeps_leaveFlashingModeLocked : keeps.

Lemma keeps_readFlashLocked (offset len : Z) :
  keeps port_step (readFlashLocked ulong_bits offset len).
Proof. unfold readFlashLocked. keeps_tac. Qed.

Hint Resolve keeps_readFlashLocked : keeps.

Lemma keeps_readFlashParamsLocked :
  keeps port_step (readFlashParamsLocked ulong_bits).
Proof. unfold readFlashParamsLocked. keeps_tac. Qed.

Lemma keeps_findIdLocked : keeps port_step (findIdLocked ulong_bits).
Proof. unfold findIdLocked. keeps_tac. Qed.

Hint Resolve keeps_readFlashParamsLocked keeps_findIdLocked : keeps.

Lemma keeps_writeFlashLocked_loop (fuel : nat) (addr start : Z) (bytes : list byte) :
  keeps io_step (writeFlashLocked_loop ulong_bits fuel addr start bytes).
Proof.
  revert start; induction fuel as [|fuel IH]; intros start; simpl; keeps_tac.
Qed.

Hint Resolve keeps_writeFlashLocked_loop : keeps.

Lemma keeps_writeFlashLocked (addr : Z) (bytes : list byte) :
  keeps io_step (writeFlashLocked ulong_bits addr bytes).
Proof. unfold writeFlashLocked. keeps_tac. Qed.

Hint Resolve keeps_writeFlashLocked : keeps.

Lemma keeps_run_writeImage (attempts : nat) (addr written : Z) :
  keeps io_step (run_writeImage ulong_bits attempts addr written).
Proof.
  induction attempts as [|attempts IH]; simpl; keeps_tac.
Qed.

End MethodsKeep.

(** ** Reading the flash *)

Lemma port_step_fields (s s' : FlasherImpl) :
  port_step s s' ->
  images_ s' = images_ s /\ written_count_ s' = written_count_ s /\
  preserve_flash_params_ s' = preserve_flash_params_ s /\
  erase_bug_workaround_ s' = erase_bug_workaround_ s /\
  override_flash_params_ s' = override_flash_params_ s /\
  merge_flash_filesystem_ s' = merge_flash_filesystem_ s /\
  generate_id_if_none_found_ s' = generate_id_if_none_found_ s /\
  id_hostname_ s' = id_hostname_ s.
Proof. intros [-> _]. now destruct s. Qed.

Lemma io_step_fields (s s' : FlasherImpl) :
  io_step s s' ->
  images_ s' = images_ s /\
  preserve_flash_params_ s' = preserve_flash_params_ s /\
  erase_bug_workaround_ s' = erase_bug_workaround_ s /\
  override_flash_params_ s' = override_flash_params_ s /\
  merge_flash_filesystem_ s' = merge_flash_filesystem_ s /\
  generate_id_if_none_found_ s' = generate_id_if_none_found_ s /\
  id_hostname_ s' = id_hostname_ s.
Proof. intros [-> _]. now destruct s. Qed.

(** Goes through the binds and the tests of a method whose result is looked
    at. *)
Ltac result_step :=
  first
    [ rewrite bind_eq
    | match goal with
      | |- context [if negb ?b then _ else _] => destruct b; cbn [negb]
      | |- context [if ?a <? ?b then _ else _] => destruct (Z.ltb_spec a b)
      end ];
  cbn [fst snd ret].

Section ReadFlash.

Variable ulong_bits : Z.

Lemma readFlashLocked_value (offset len : Z) (s : FlasherImpl) (r : list byte) :
  fst (readFlashLocked ulong_bits offset len s) = Value r ->
  to_int len <= Z.of_nat (length r).
Proof.
  unfold readFlashLocked. repeat result_step; unfold ret; cbn [fst];
    try discriminate.
  match goal with
  | H : _ <= Z.of_nat (length ?x) |- _ =>
      revert H; generalize x; intros x' H [= <-]; exact H
  end.
Qed.

Lemma readFlashLocked_status (offset len : Z) (s : FlasherImpl)
    (code : error_code) (message : string) :
  fst (readFlashLocked ulong_bits offset len s) = Status code message ->
  code = ABORTED.
Proof.
  unfold readFlashLocked. repeat result_step; unfold ret; cbn [fst];
    try discriminate; intros [= <- _]; reflexivity.
Qed.

(** [readFlashLocked] changes nothing of the flasher but the port, on which
    it only sends frames; it returns at least [len] bytes, or the error
    ABORTED. *)
Theorem readFlashLocked_result (offset len : Z) (s : FlasherImpl) :
  port_step s (snd (readFlashLocked ulong_bits offset len s)) /\
  match fst (readFlashLocked ulong_bits offset len s) with
  | Value r => to_int len <= Z.of_nat (length r)
  | Status code _ => code = ABORTED
  end.
Proof.
  split; [apply keeps_readFlashLocked|].
  destruct (fst (readFlashLocked ulong_bits offset len s)) as [r|code message] eqn:E.
  - exact (readFlashLocked_value _ _ _ _ E).
  - exact (readFlashLocked_status _ _ _ _ _ E).
Qed.

Lemma readFlashParamsLocked_eq (s : FlasherImpl) :
  readFlashParamsLocked ulong_bits s
  = (match fst (readFlashLocked ulong_bits 0 4 s) with
     | Value r => if Byte.eqb (nth 0 r x00) xe9 then Qt.mid 2 2 r else []
     | Status _ _ => []
     end,
     snd (readFlashLocked ulong_bits 0 4 s)).
Proof.
  unfold readFlashParamsLocked. rewrite bind_eq.
  destruct (readFlashLocked ulong_bits 0 4 s) as [[r|code message] s'];
    cbn [fst snd]; [|reflexivity].
  now destruct (Byte.eqb (nth 0 r x00) xe9).
Qed.

(** [readFlashParamsLocked] returns exactly two bytes or nothing.  It returns
    two bytes exactly when the flash read succeeded and the bytes read start
    with 0xE9, and they are bytes 2 and 3 of what was read. *)
Theorem readFlashParamsLocked_result (s : FlasherImpl) :
  let params := fst (readFlashParamsLocked ulong_bits s) in
  (params = [] \/
   exists r, fst (readFlashLocked ulong_bits 0 4 s) = Value r /\
             nth 0 r x00 = xe9 /\ params = [nth 2 r x00; nth 3 r x00]) /\
  (forall r, fst (readFlashLocked ulong_bits 0 4 s) = Value r ->
             nth 0 r x00 = xe9 -> params = [nth 2 r x00; nth 3 r x00]).
Proof.
  intros params. subst params. rewrite readFlashParamsLocked_eq. cbn [fst].
  destruct (fst (readFlashLocked ulong_bits 0 4 s)) as [r|code message] eqn:E.
  - assert (Hmid : Qt.mid 2 2 r = [nth 2 r x00; nth 3 r x00]).
    { apply readFlashLocked_value in E. change (to_int 4) with 4 in E.
      destruct r as [|r0 [|r1 [|r2 [|r3 r]]]]; simpl in E; try lia. reflexivity. }
    split.
    + destruct (Byte.eqb (nth 0 r x00) xe9) eqn:Emagic; [|now left].
      right. exists r. apply Byte.byte_dec_bl in Emagic. auto.
    + intros r' [= <-] Hmagic. rewrite Hmagic.
      change (Byte.eqb xe9 xe9) with true. exact Hmid.
  - split; [now left|discriminate].
Qed.

End ReadFlash.

Lemma readFlashParamsLocked_result_witness :
  fst (readFlashParamsLocked 64 (snd (on_port rebootIntoBootloader preserving_flasher)))
  = [nth 2 (hex "E9000290") x00; nth 3 (hex "E9000290") x00].
Proof.
  apply (proj2 (readFlashParamsLocked_result 64
                  (snd (on_port rebootIntoBootloader preserving_flasher)))
           (hex "E9000290"));
    vm_compute; reflexivity.
Defined.

(** ** Progress counting *)

Lemma blocks_of_nonneg (len : Z) : 0 <= len -> 0 <= blocks_of len <= len.
Proof.
  intros Hlen. unfold blocks_of.
  destruct (Z.eqb_spec (len mod 1024) 0); Z.div_mod_to_equations; lia.
Qed.

Lemma blocks_from_step (len start : Z) :
  start < len -> blocks_from len start = 1 + blocks_from len (start + 1024).
Proof.
  intros Hlt. unfold blocks_from, blocks_of.
  destruct (Z.ltb_spec start len); [|lia].
  destruct (Z.ltb_spec (start + 1024) len);
    destruct (Z.eqb_spec ((len - start) mod 1024) 0);
    try destruct (Z.eqb_spec ((len - (start + 1024)) mod 1024) 0);
    Z.div_mod_to_equations; lia.
Qed.

Lemma blocks_from_nonneg (len start : Z) : 0 <= blocks_from len start.
Proof.
  unfold blocks_from. destruct (Z.ltb_spec start len); [|lia].
  apply blocks_of_nonneg. lia.
Qed.

Lemma written_count_emit_signal (e : event) (s : FlasherImpl) :
  written_count_ (snd (emit_signal e s)) = written_count_ s.
Proof. now destruct s. Qed.

Lemma written_count_set (count : Z) (s : FlasherImpl) :
  written_count_ (set_written_count_ count s) = count.
Proof. now destruct s. Qed.

Lemma images_emit_signal (e : event) (s : FlasherImpl) :
  images_ (snd (emit_signal e s)) = images_ s.
Proof. now destruct s. Qed.

Section Progress.

Variable ulong_bits : Z.
Hypothesis ulong_bits_ge : 32 <= ulong_bits.

Lemma writeFlashLocked_loop_count (fuel : nat) (addr : Z) (bytes : list byte) :
  Z.of_nat (length bytes) < 2 ^ 31 ->
  forall (start : Z) (s : FlasherImpl),
    0 <= start ->
    blocks_from (Z.of_nat (length bytes)) start <= Z.of_nat fuel ->
    0 <= written_count_ s ->
    written_count_ s + blocks_from (Z.of_nat (length bytes)) start < 2 ^ 31 ->
    fst (writeFlashLocked_loop ulong_bits fuel addr start bytes s) = true ->
    written_count_ (snd (writeFlashLocked_loop ulong_bits fuel addr start bytes s))
    = written_count_ s + blocks_from (Z.of_nat (length bytes)) start.
Proof.
  intros Hlen. induction fuel as [|fuel IH]; intros start s Hstart Hfuel Hwc Hsum.
  - intros _. cbn [writeFlashLocked_loop ret snd].
    pose proof (blocks_from_nonneg (Z.of_nat (length bytes)) start). lia.
  - cbn [writeFlashLocked_loop].
    destruct (Z.ltb_spec start (Z.of_nat (length bytes))) as [Hlt|Hge]; cbn [negb].
    + rewrite !bind_eq. cbn [fst snd].
      set (s1 := snd (emit_signal _ s)).
      assert (Hwc1 : written_count_ s1 = written_count_ s)
        by apply written_count_emit_signal.
      match goal with
      | |- context [writeFlashBlockLocked ?q ?d s1] =>
          pose proof (keeps_writeFlashBlockLocked q d s1) as Hblock;
          destruct (writeFlashBlockLocked q d s1) as [written s2]
      end.
      cbn [fst snd] in *. apply port_step_fields in Hblock.
      destruct Hblock as (_ & Hwc2 & _).
      destruct written; cbn [negb]; [|discriminate].
      rewrite !bind_eq. cbn [modify get fst snd].
      set (s3 := set_written_count_ (to_int (written_count_ s2 + 1)) s2).
      set (s4 := snd (emit_signal _ s3)).
      assert (Hwc4 : written_count_ s4 = written_count_ s + 1).
      { subst s4. rewrite written_count_emit_signal. subst s3.
        rewrite written_count_set, Hwc2, Hwc1. unfold to_int.
        pose proof (blocks_from_nonneg (Z.of_nat (length bytes)) (start + 1024)).
        rewrite (blocks_from_step _ _ Hlt) in Hsum.
        rewrite Z.mod_small; lia. }
      rewrite (ulong_in_range ulong_bits) by
        (pose proof (Z.pow_le_mono_r 2 32 ulong_bits ltac:(lia) ulong_bits_ge);
         unfold writeBlockSize; lia).
      unfold writeBlockSize.
      rewrite (blocks_from_step _ _ Hlt) in *.
      intros Htrue.
      rewrite (IH (start + 1024) s4 ltac:(lia) ltac:(lia) ltac:(lia) ltac:(lia) Htrue).
      lia.
    + intros _. cbn [ret snd]. unfold blocks_from.
      destruct (Z.ltb_spec start (Z.of_nat (length bytes))); lia.
Qed.

Lemma writeFlashLocked_count (addr : Z) (bytes : list byte) (s : FlasherImpl) :
  Z.of_nat (length bytes) < 2 ^ 31 ->
  0 <= written_count_ s ->
  written_count_ s + blocks_of (Z.of_nat (length bytes)) < 2 ^ 31 ->
  fst (writeFlashLocked ulong_bits addr bytes s) = true ->
  written_count_ (snd (writeFlashLocked ulong_bits addr bytes s))
  = written_count_ s + blocks_of (Z.of_nat (length bytes)).
Proof.
  intros Hlen Hwc Hsum. unfold writeFlashLocked. cbv zeta.
  rewrite !bind_eq. cbn [fst snd].
  set (s1 := snd (emit_signal _ s)).
  assert (Hwc1 : written_count_ s1 = written_count_ s)
    by apply written_count_emit_signal.
  match goal with
  | |- context [writeFlashStartLocked ulong_bits ?a ?b s1] =>
      pose proof (keeps_writeFlashStartLocked ulong_bits a b s1) as Hstart;
      destruct (writeFlashStartLocked ulong_bits a b s1) as [started s2]
  end.
  cbn [fst snd] in *. apply port_step_fields in Hstart.
  destruct Hstart as (_ & Hwc2 & _).
  destruct started; cbn [negb]; [|discriminate].
  assert (Hfrom : blocks_from (Z.of_nat (length bytes)) 0
                  = blocks_of (Z.of_nat (length bytes))).
  { unfold blocks_from. destruct (Z.ltb_spec 0 (Z.of_nat (length bytes))) as [|H0].
    - now rewrite Z.sub_0_r.
    - replace (Z.of_nat (length bytes)) with 0 by lia. reflexivity. }
  pose proof (blocks_of_nonneg (Z.of_nat (length bytes)) ltac:(lia)).
  intros Htrue.
  rewrite (writeFlashLocked_loop_count _ addr bytes Hlen 0 s2); rewrite ?Hfrom; lia || auto.
Qed.

End Progress.

Lemma images_blocks_cons (images : gmap Z (list byte)) (addr : Z) (addrs : list Z) :
  images_blocks images (addr :: addrs)
  = blocks_of (Z.of_nat (length (default [] (images !! addr))))
    + images_blocks images addrs.
Proof. reflexivity. Qed.

Lemma images_blocks_nonneg (images : gmap Z (list byte)) (addrs : list Z) :
  0 <= images_blocks images addrs.
Proof.
  induction addrs as [|addr addrs IH]; [cbn; lia|].
  rewrite images_blocks_cons.
  pose proof (blocks_of_nonneg (Z.of_nat (length (default [] (images !! addr))))
                ltac:(lia)).
  lia.
Qed.

Section ProgressOfRun.

Variable ulong_bits : Z.
Hypothesis ulong_bits_ge : 32 <= ulong_bits.

Lemma run_writeImage_count (attempts : nat) (addr written : Z) :
  forall s : FlasherImpl,
    let bytes := default [] (images_ s !! addr) in
    Z.of_nat (length bytes) < 2 ^ 31 ->
    written_count_ s = written ->
    0 <= written ->
    written + blocks_of (Z.of_nat (length bytes)) < 2 ^ 31 ->
    fst (run_writeImage ulong_bits attempts addr written s) = true ->
    written_count_ (snd (run_writeImage ulong_bits attempts addr written s))
    = written + blocks_of (Z.of_nat (length bytes)).
Proof.
  induction attempts as [|attempts IH]; intros s bytes Hlen Hwc Hpos Hsum;
    [discriminate|].
  cbn [run_writeImage]. rewrite !bind_eq. cbn [get fst snd]. fold bytes.
  pose proof (writeFlashLocked_count ulong_bits ulong_bits_ge addr bytes s Hlen
                ltac:(lia) ltac:(lia)) as Hcount.
  pose proof (keeps_writeFlashLocked ulong_bits addr bytes s) as Hkeeps.
  destruct (writeFlashLocked ulong_bits addr bytes s) as [[] s1]; cbn [fst snd] in *.
  - intros _. unfold ret. cbn [snd]. rewrite Hcount by reflexivity. lia.
  - clear Hcount. rewrite !bind_eq. cbn [modify fst snd].
    set (s2 := snd (emit_signal _ (set_written_count_ written s1))).
    pose proof (keeps_on_port _ port_only_rebootIntoBootloader s2) as Hboot.
    destruct (on_port rebootIntoBootloader s2) as [[] s3]; cbn [fst snd negb] in *;
      [|discriminate].
    apply port_step_fields in Hboot. destruct Hboot as (Himg3 & Hwc3 & _).
    apply io_step_fields in Hkeeps. destruct Hkeeps as (Himg1 & _).
    assert (Himg2 : images_ s2 = images_ s).
    { subst s2. rewrite images_emit_signal. now destruct s1. }
    assert (Hwc2 : written_count_ s2 = written).
    { subst s2. rewrite written_count_emit_signal. now destruct s1. }
    intros Htrue.
    rewrite (IH s3); rewrite ?Himg3, ?Himg2; fold bytes; auto; lia.
Qed.

Lemma run_writeImages_count (addrs : list Z) :
  forall s : FlasherImpl,
    (forall addr bytes, images_ s !! addr = Some bytes ->
                        Z.of_nat (length bytes) < 2 ^ 31) ->
    0 <= written_count_ s ->
    written_count_ s + images_blocks (images_ s) addrs < 2 ^ 31 ->
    fst (run_writeImages ulong_bits addrs s) = true ->
    written_count_ (snd (run_writeImages ulong_bits addrs s))
    = written_count_ s + images_blocks (images_ s) addrs.
Proof.
  induction addrs as [|addr addrs IH]; intros s Hlens Hwc Hsum.
  - intros _. cbn. lia.
  - cbn [run_writeImages]. rewrite !bind_eq. cbn [get fst snd].
    rewrite images_blocks_cons in Hsum |- *.
    assert (Hlen : Z.of_nat (length (default [] (images_ s !! addr))) < 2 ^ 31).
    { destruct (images_ s !! addr) as [bytes|] eqn:E; [exact (Hlens _ _ E)|].
      cbn. lia. }
    pose proof (images_blocks_nonneg (images_ s) addrs) as Hrest.
    pose proof (blocks_of_nonneg _ (Nat2Z.is_nonneg (length (default [] (images_ s !! addr)))))
      as Hblocks.
    pose proof (run_writeImage_count 3 addr (written_count_ s) s Hlen eq_refl Hwc
                  ltac:(lia)) as Hcount.
    pose proof (keeps_run_writeImage ulong_bits 3 addr (written_count_ s) s) as Hkeeps.
    destruct (run_writeImage ulong_bits 3 addr (written_count_ s) s) as [[] s1];
      cbn [fst snd negb] in *.
    + apply io_step_fields in Hkeeps. destruct Hkeeps as (Himg & _).
      specialize (Hcount eq_refl). intros Htrue.
      rewrite (IH s1); rewrite ?Himg; auto; lia.
    + rewrite bind_eq. cbn [ret fst]. discriminate.
Qed.

Lemma totalBlocks_fold (images : gmap Z (list byte)) (addrs : list Z) (r : Z) :
  (forall addr bytes, images !! addr = Some bytes ->
                      Z.of_nat (length bytes) < 2 ^ 31) ->
  0 <= r ->
  r + images_blocks images addrs < 2 ^ 31 ->
  fold_left
    (fun r bytes =>
       let len := Z.of_nat (length bytes) in
       let r := to_int (ulong ulong_bits (r + len / writeBlockSize)) in
       if negb (len mod writeBlockSize =? 0) then to_int (r + 1) else r)
    (map (fun addr => default [] (images !! addr)) addrs) r
  = r + images_blocks images addrs.
Proof.
  intros Hlens. revert r; induction addrs as [|addr addrs IH]; intros r Hr Hsum.
  - cbn. lia.
  - rewrite images_blocks_cons in Hsum |- *.
    pose proof (images_blocks_nonneg images addrs) as Hrest.
    cbn [map fold_left]. cbv zeta.
    unfold blocks_of in Hsum |- *. unfold writeBlockSize.
    set (len := Z.of_nat (length (default [] (images !! addr)))) in *.
    assert (Hlen : 0 <= len) by (subst len; lia).
    assert (Hdiv : 0 <= len / 1024) by (apply Z.div_pos; lia).
    rewrite (to_int_ulong_small ulong_bits ulong_bits_ge)
      by (destruct (len mod 1024 =? 0); lia).
    destruct (Z.eqb_spec (len mod 1024) 0); cbn [negb].
    + rewrite IH by lia. lia.
    + assert (Hone : to_int (r + len / 1024 + 1) = r + len / 1024 + 1)
        by (unfold to_int; rewrite Z.mod_small; lia).
      rewrite Hone, IH by lia. lia.
Qed.

(** [totalBlocks] is the number of 1024-byte blocks of all images, each image
    rounded up; and when all images have been written, starting from a
    progress counter of zero, the counter equals [totalBlocks], retries
    included. *)
Theorem progress_reaches_totalBlocks (s : FlasherImpl) :
  let total := images_blocks (images_ s) (keys (images_ s)) in
  (forall addr bytes, images_ s !! addr = Some bytes ->
                      Z.of_nat (length bytes) < 2 ^ 31) ->
  total < 2 ^ 31 ->
  totalBlocks ulong_bits s = total /\
  (written_count_ s = 0 ->
   fst (run_writeImages ulong_bits (keys (images_ s)) s) = true ->
   written_count_ (snd (run_writeImages ulong_bits (keys (images_ s)) s))
   = totalBlocks ulong_bits s).
Proof.
  intros total Hlens Htotal.
  assert (Heq : totalBlocks ulong_bits s = total).
  { unfold totalBlocks, values.
    rewrite (totalBlocks_fold _ _ 0 Hlens); fold total; lia. }
  split; [exact Heq|].
  intros Hzero Htrue.
  rewrite (run_writeImages_count _ s Hlens); rewrite ?Hzero; fold total; auto; lia.
Qed.

End ProgressOfRun.

Lemma progress_reaches_totalBlocks_witness :
  let s := set_written_count_ 0 (snd (on_port rebootIntoBootloader dio_flasher)) in
  totalBlocks 64 s = 1 /\
  written_count_ (snd (run_writeImages 64 (keys (images_ s)) s)) = 1.
Proof.
  intros s.
  assert (Hlens : forall addr bytes, images_ s !! addr = Some bytes ->
                                     Z.of_nat (length bytes) < 2 ^ 31).
  { intros addr bytes Hlookup. subst s.
    destruct (decide (addr = 0)) as [->|Hne].
    - vm_compute in Hlookup. injection Hlookup as <-. vm_compute. reflexivity.
    - change (images_ (set_written_count_ 0
                         (snd (on_port rebootIntoBootloader dio_flasher))))
        with (<[0 := hex "E9000240"]> (∅ : gmap Z (list byte))) in Hlookup.
      rewrite lookup_insert_ne, lookup_empty in Hlookup by auto. discriminate. }
  destruct (progress_reaches_totalBlocks 64 ltac:(lia) s Hlens
              ltac:(vm_compute; reflexivity)) as [Htotal Hcount].
  split; [exact Htotal|].
  rewrite Hcount; [exact Htotal|reflexivity|vm_compute; reflexivity].
Defined.

(** ** The whole of [run] *)

Lemma images_step_refl (gen : list byte) (m : gmap Z (list byte)) :
  images_step gen m m.
Proof.
  split; [reflexivity|]. split; [now left|].
  destruct (m !! 0) as [image0|]; [|reflexivity]. now exists image0.
Qed.

Lemma images_step_trans (gen : list byte) (m1 m2 m3 : gmap Z (list byte)) :
  images_step gen m1 m2 -> images_step gen m2 m3 -> images_step gen m1 m3.
Proof.
  intros (O1 & I1 & B1) (O2 & I2 & B2). split; [|split].
  - intros addr H0 Hid. now rewrite O2, O1.
  - destruct I2 as [I2|I2]; [rewrite I2; exact I1|now right].
  - destruct (m1 !! 0) as [image0|].
    + destruct B1 as (image1 & E1 & L1 & F1 & S1). rewrite E1 in B2.
      destruct B2 as (image2 & E2 & L2 & F2 & S2).
      exists image2. repeat split; congruence.
    + now rewrite B1 in B2.
Qed.

Lemma same_config_trans (s1 s2 s3 : FlasherImpl) :
  same_config s1 s2 -> same_config s2 s3 -> same_config s1 s3.
Proof. unfold same_config. intuition congruence. Qed.

Lemma phase_io (gen : list byte) (s s' : FlasherImpl) :
  io_step s s' -> phase gen false s s'.
Proof.
  intros H. pose proof (io_step_fields _ _ H) as (Himg & Hconfig).
  split; [exact Hconfig|]. split; [rewrite Himg; apply images_step_refl|].
  exact (proj2 H).
Qed.

Lemma phase_refl (gen : list byte) (s : FlasherImpl) : phase gen false s s.
Proof. apply phase_io, io_step_refl. Qed.

Lemma phase_trans (gen : list byte) (d : bool) (s1 s2 s3 : FlasherImpl) :
  phase gen false s1 s2 -> phase gen d s2 s3 -> phase gen d s1 s3.
Proof.
  intros (C1 & I1 & es1 & T1 & F1) (C2 & I2 & T2).
  split; [exact (same_config_trans _ _ _ C1 C2)|].
  split; [exact (images_step_trans _ _ _ _ I1 I2)|].
  destruct d.
  - destruct T2 as (es2 & msg & ok & T2 & F2 & Hok).
    exists (es1 ++ es2), msg, ok. split; [|split; [now apply Forall_app|exact Hok]].
    now rewrite T2, T1, <- !app_assoc.
  - destruct T2 as (es2 & T2 & F2).
    exists (es1 ++ es2). split; [now rewrite T2, T1, app_assoc|now apply Forall_app].
Qed.

Lemma phase_done (gen : list byte) (msg : done_msg) (ok : bool) (s : FlasherImpl) :
  (ok = true <-> msg = AllDone) ->
  phase gen true s (snd (emit_signal (EmitDone msg ok) s)).
Proof.
  intros Hok. split; [now destruct s|]. split.
  - replace (images_ (snd (emit_signal (EmitDone msg ok) s))) with (images_ s)
      by now destruct s.
    apply images_step_refl.
  - exists [], msg, ok. split; [now destruct s|]. split; [constructor|exact Hok].
Qed.

Lemma phase_failed (gen : list byte) (msg : done_msg) (s : FlasherImpl) :
  msg <> AllDone -> phase gen true s (snd (emit_signal (EmitDone msg false) s)).
Proof.
  intros Hmsg. apply phase_done. split; [discriminate|contradiction].
Qed.

Section RunPhases.

Variable ulong_bits : Z.
Variable qrand : nat -> Z.

Lemma run_flashParams_phase (gen : list byte) (s : FlasherImpl) :
  phase gen (bool_decide (fst (run_flashParams ulong_bits s) = None)) s
    (snd (run_flashParams ulong_bits s)).
Proof.
  unfold run_flashParams. rewrite bind_eq. cbn [get fst snd].
  destruct (override_flash_params_ s >=? 0); [apply phase_refl|].
  destruct (preserve_flash_params_ s); [|apply phase_refl].
  rewrite bind_eq.
  pose proof (keeps_readFlashParamsLocked ulong_bits s) as Hread.
  apply port_step_io_step, (phase_io gen) in Hread.
  destruct (readFlashParamsLocked ulong_bits s) as [params s1]. cbn [fst snd] in *.
  destruct params as [|p0 [|p1 [|p2 params]]]; try exact Hread;
    rewrite bind_eq; cbn [ret fst snd];
    (eapply phase_trans; [exact Hread|]); now apply phase_failed.
Qed.

Lemma run_patchBootImage_phase (gen : list byte) (flashParams : Z) (s : FlasherImpl) :
  phase gen false s (snd (run_patchBootImage flashParams s)).
Proof.
  unfold run_patchBootImage. rewrite bind_eq. cbn [get fst snd].
  destruct (images_ s !! 0) as [image0|] eqn:Himage; [|apply phase_refl].
  destruct (Z.geb_spec (Z.of_nat (length image0)) 4) as [Hlen|]; [|apply phase_refl].
  destruct (Byte.eqb (nth 0 image0 x00) xe9); [|apply phase_refl].
  cbn [andb]. rewrite bind_eq. cbn [modify ret fst snd].
  set (image0' := if flashParams >=? 0 then _ else image0).
  assert (Himage' : length image0' = length image0 /\
                    firstn 2 image0' = firstn 2 image0 /\
                    skipn 4 image0' = skipn 4 image0).
  { subst image0'. destruct (flashParams >=? 0); [|auto].
    rewrite !length_insert. split; [reflexivity|].
    apply (patched_bytes image0 _ _ ltac:(lia)). }
  split; [now destruct s|]. split.
  - cbn [images_ set_images_]. split; [|split].
    + intros addr H0 _. now rewrite lookup_insert_ne.
    + left. now rewrite lookup_insert_ne.
    + rewrite Himage. exists image0'. now rewrite lookup_insert_eq.
  - exists []. split; [now rewrite app_nil_r|constructor].
Qed.

Lemma run_generateId_phase (s : FlasherImpl) :
  phase (generateIdBlock ulong_bits qrand (id_hostname_ s))
    (negb (fst (run_generateId ulong_bits qrand s)))
    s (snd (run_generateId ulong_bits qrand s)).
Proof.
  set (gen := generateIdBlock ulong_bits qrand (id_hostname_ s)).
  unfold run_generateId. rewrite bind_eq. cbn [get fst snd].
  destruct (generate_id_if_none_found_ s); [|apply phase_refl].
  rewrite bind_eq.
  pose proof (keeps_findIdLocked ulong_bits s) as Hfind.
  pose proof (port_step_fields _ _ Hfind) as (Himg & _ & _ & _ & _ & _ & _ & Hhost).
  apply port_step_io_step, (phase_io gen) in Hfind.
  destruct (findIdLocked ulong_bits s) as [[found|code message] s1];
    cbn [fst snd] in *.
  - rewrite bind_eq. cbn [ret fst snd negb].
    eapply phase_trans; [exact Hfind|].
    destruct found; cbn [negb]; [apply phase_refl|].
    cbn [modify snd]. split; [now destruct s1|]. split.
    + cbn [images_ set_images_]. rewrite Hhost. fold gen. split; [|split].
      * intros addr _ Hid. now rewrite lookup_insert_ne.
      * right. apply lookup_insert_eq.
      * rewrite lookup_insert_ne by discriminate.
        destruct (images_ s1 !! 0) as [image0|]; [|reflexivity]. now exists image0.
    + exists []. split; [now destruct s1; cbn; rewrite app_nil_r|constructor].
  - rewrite bind_eq. cbn [ret fst snd negb].
    eapply phase_trans; [exact Hfind|]. now apply phase_failed.
Qed.

Lemma run_writeImages_phase (gen : list byte) (addrs : list Z) (s : FlasherImpl) :
  phase gen (negb (fst (run_writeImages ulong_bits addrs s)))
    s (snd (run_writeImages ulong_bits addrs s)).
Proof.
  revert s; induction addrs as [|addr addrs IH]; intros s; [apply phase_refl|].
  cbn [run_writeImages]. rewrite !bind_eq. cbn [get fst snd].
  pose proof (keeps_run_writeImage ulong_bits 3 addr (written_count_ s) s) as Hwrite.
  apply (phase_io gen) in Hwrite.
  destruct (run_writeImage ulong_bits 3 addr (written_count_ s) s) as [[] s1];
    cbn [fst snd negb] in *.
  - eapply phase_trans; [exact Hwrite|]. apply IH.
  - rewrite bind_eq. cbn [ret fst snd negb].
    eapply phase_trans; [exact Hwrite|]. now apply phase_failed.
Qed.

Lemma run_finish_phase (gen : list byte) (flashParams : Z) (s : FlasherImpl) :
  phase gen true s (snd (run_finish flashParams s)).
Proof.
  unfold run_finish. destruct (_ =? 2).
  - rewrite bind_eq.
    pose proof (keeps_on_port _ port_only_rebootIntoFirmware s) as Hboot.
    apply port_step_io_step, (phase_io gen) in Hboot.
    eapply phase_trans; [exact Hboot|]. now apply phase_done.
  - rewrite bind_eq.
    pose proof (keeps_leaveFlashingModeLocked s) as Hleave.
    apply port_step_io_step, (phase_io gen) in Hleave.
    eapply phase_trans; [exact Hleave|].
    destruct (fst (leaveFlashingModeLocked s)); cbn [negb];
      [now apply phase_done|now apply phase_failed].
Qed.

Lemma phase_gen_eq (gen gen' : list byte) (d : bool) (s s' : FlasherImpl) :
  gen = gen' -> phase gen d s s' -> phase gen' d s s'.
Proof. now intros ->. Qed.

Lemma run_flash_phase (s : FlasherImpl) :
  phase (generateIdBlock ulong_bits qrand (id_hostname_ s))
    (bool_decide (fst (run_flash ulong_bits qrand s) = None))
    s (snd (run_flash ulong_bits qrand s)).
Proof.
  set (gen := generateIdBlock ulong_bits qrand (id_hostname_ s)).
  unfold run_flash. rewrite bind_eq.
  pose proof (run_flashParams_phase gen s) as Hparams.
  destruct (run_flashParams ulong_bits s) as [[flashParams|] s1];
    cbn [fst snd] in *; [|exact Hparams].
  rewrite bind_eq.
  pose proof (run_patchBootImage_phase gen flashParams s1) as Hpatch.
  destruct (run_patchBootImage flashParams s1) as [flashParams' s2].
  cbn [fst snd] in *.
  pose proof (phase_trans _ _ _ _ _ Hparams Hpatch) as H2.
  rewrite bind_eq.
  pose proof (run_generateId_phase s2) as Hid.
  replace (id_hostname_ s2) with (id_hostname_ s) in Hid
    by (symmetry; apply H2).
  fold gen in Hid.
  destruct (run_generateId ulong_bits qrand s2) as [[] s3]; cbn [fst snd negb] in *.
  - pose proof (phase_trans _ _ _ _ _ H2 Hid) as H3.
    rewrite !bind_eq. cbn [modify get fst snd].
    set (s4 := set_written_count_ 0 s3).
    assert (H4 : phase gen false s s4).
    { eapply phase_trans; [exact H3|]. apply phase_io.
      exact (keeps_set_written_count (fun _ => 0) s3). }
    pose proof (run_writeImages_phase gen (keys (images_ s4)) s4) as Hwrite.
    destruct (run_writeImages ulong_bits (keys (images_ s4)) s4) as [[] s5];
      cbn [fst snd negb ret] in *;
      exact (phase_trans _ _ _ _ _ H4 Hwrite).
  - exact (phase_trans _ _ _ _ _ H2 Hid).
Qed.

Lemma run_phase (s : FlasherImpl) :
  phase (generateIdBlock ulong_bits qrand (id_hostname_ s)) true
    s (snd (run ulong_bits qrand s)).
Proof.
  set (gen := generateIdBlock ulong_bits qrand (id_hostname_ s)).
  unfold run. rewrite bind_eq.
  pose proof (keeps_on_port _ port_only_rebootIntoBootloader s) as Hboot.
  pose proof (port_step_fields _ _ Hboot) as (_ & _ & _ & _ & _ & _ & _ & Hhost).
  apply port_step_io_step, (phase_io gen) in Hboot.
  destruct (on_port rebootIntoBootloader s) as [[] s1]; cbn [fst snd negb] in *.
  - rewrite bind_eq.
    pose proof (run_flash_phase s1) as Hflash. rewrite Hhost in Hflash. fold gen in Hflash.
    destruct (run_flash ulong_bits qrand s1) as [[flashParams|] s2];
      cbn [fst snd] in *.
    + eapply phase_trans; [exact Hboot|].
      eapply phase_trans; [exact Hflash|]. apply run_finish_phase.
    + exact (phase_trans _ _ _ _ _ Hboot Hflash).
  - eapply phase_trans; [exact Hboot|]. now apply phase_failed.
Qed.

(** [run] emits the [done] signal exactly once, as the last thing it does,
    on every path; the signal reports success only with the message
    "All done!". *)
Theorem run_emits_done_once (s : FlasherImpl) :
  exists (es : list event) (msg : done_msg) (ok : bool),
    w_trace (port_ (snd (run ulong_bits qrand s)))
    = w_trace (port_ s) ++ es ++ [EmitDone msg ok] /\
    Forall no_done es /\
    (ok = true <-> msg = AllDone).
Proof. exact (proj2 (proj2 (run_phase s))). Qed.

(** [run] keeps the configuration of the flasher and all images but two: of
    the boot image it changes bytes 2 and 3 at most, and at the address of the
    ID block it may install the generated block. *)
Theorem run_keeps_images (s : FlasherImpl) :
  let s' := snd (run ulong_bits qrand s) in
  same_config s s' /\
  (forall addr, addr <> 0 -> addr <> idBlockOffset ->
                images_ s' !! addr = images_ s !! addr) /\
  (images_ s' !! idBlockOffset = images_ s !! idBlockOffset \/
   images_ s' !! idBlockOffset
   = Some (generateIdBlock ulong_bits qrand (id_hostname_ s))) /\
  match images_ s !! 0 with
  | Some image0 =>
      exists image0',
        images_ s' !! 0 = Some image0' /\ length image0' = length image0 /\
        firstn 2 image0' = firstn 2 image0 /\ skipn 4 image0' = skipn 4 image0
  | None => images_ s' !! 0 = None
  end.
Proof.
  intros s'. destruct (run_phase s) as (Hconfig & Himages & _).
  split; [exact Hconfig|exact Himages].
Qed.

End RunPhases.

(** ** Flash parameter strings, loading, and a run without a bootloader *)

(** Whatever [flashParamsFromString] accepts is a 16-bit value, so never
    negative: [run] takes it as an override. *)
Theorem flashParamsFromString_range (str : string) (v : Z) :
  flashParamsFromString str = Value v -> 0 <= v < 65536.
Proof.
  unfold flashParamsFromString.
  destruct (Qt.split "," str) as [|part0 [|part1 [|part2 [|part3 parts]]]];
    try discriminate.
  - destruct (Qt.toInt str) as [r|]; [|discriminate].
    intros [= <-]. change 0xffff with (Z.ones 16). rewrite Z.land_ones by lia.
    apply Z.mod_pos_bound. lia.
  - destruct (flashMode !! part0) as [mode|] eqn:Emode; [|discriminate].
    destruct (flashSize !! part1) as [size|] eqn:Esize; [|discriminate].
    destruct (flashFreq !! part2) as [freq|] eqn:Efreq; [|discriminate].
    intros [= <-].
    apply elem_of_list_to_map_2, list_elem_of_In in Emode, Esize, Efreq.
    simpl in Emode, Esize, Efreq.
    repeat match goal with
           | H : _ \/ _ |- _ => destruct H as [H|H]
           | H : (_, _) = (_, _) |- _ => injection H as <- <-
           | H : False |- _ => destruct H
           end; vm_compute; split; congruence.
Qed.

Lemma flashParamsFromString_range_witness :
  flashParamsFromString "-1" = Value 0xffff /\ 0 <= 0xffff < 65536.
Proof.
  split; [reflexivity|].
  apply (flashParamsFromString_range "-1" 0xffff). reflexivity.
Defined.

Lemma stored_app (l1 l2 : list (string * Z * list byte)) (m : gmap Z (list byte)) :
  stored (l1 ++ l2) m = stored l2 (stored l1 m).
Proof. unfold stored. apply fold_left_app. Qed.

Lemma stored_lookup_other (l : list (string * Z * list byte))
    (m : gmap Z (list byte)) (addr : Z) :
  ~ In addr (map (fun entry => snd (fst entry)) l) ->
  stored l m !! addr = m !! addr.
Proof.
  revert m; induction l as [|[[name a] bytes] l IH]; intros m Hnot; [reflexivity|].
  change (stored ((name, a, bytes) :: l) m) with (stored l (<[a := bytes]> m)).
  rewrite IH by (intros Hin; apply Hnot; now right).
  apply lookup_insert_ne. intros ->. apply Hnot. now left.
Qed.

(** When every file of a directory loads, [load] succeeds and the map holds
    exactly the images of the directory, whatever it held before: for every
    address the bytes of the last file with that address, and nothing at an
    address that no file has. *)
Theorem load_all (l : list (string * Z * list byte)) (self : FlasherImpl) :
  l <> [] ->
  let loaded := load (Some (loadable_files l)) self in
  fst loaded = LoadOk /\
  (forall l1 name addr bytes l2,
      l = l1 ++ (name, addr, bytes) :: l2 ->
      ~ In addr (map (fun entry => snd (fst entry)) l2) ->
      images_ (snd loaded) !! addr = Some bytes) /\
  (forall addr,
      ~ In addr (map (fun entry => snd (fst entry)) l) ->
      images_ (snd loaded) !! addr = None).
Proof.
  intros Hne loaded.
  assert (Hload : loaded = (LoadOk, set_images_ (stored l ∅) self)).
  { subst loaded. destruct l as [|[[name addr] bytes] l]; [contradiction|].
    change (loadable_files ((name, addr, bytes) :: l))
      with (loadable name addr bytes :: loadable_files l).
    rewrite load_eq.
    change (loadable name addr bytes :: loadable_files l)
      with (loadable_files ((name, addr, bytes) :: l)).
    rewrite <- (app_nil_r (loadable_files _)), load_files_loadable. reflexivity. }
  rewrite Hload. cbn [fst snd images_ set_images_].
  split; [reflexivity|]. split.
  - intros l1 name addr bytes l2 -> Hlast.
    rewrite stored_app.
    change (stored ((name, addr, bytes) :: l2) (stored l1 ∅))
      with (stored l2 (<[addr := bytes]> (stored l1 ∅))).
    rewrite (stored_lookup_other _ _ _ Hlast). apply lookup_insert_eq.
  - intros addr Hnot. rewrite (stored_lookup_other _ _ _ Hnot). apply lookup_empty.
Qed.

Lemma load_all_witness :
  images_ (snd (load (Some (loadable_files
                              [("0x1000.bin"%string, 0x1000, hex "AA");
                               ("0x01000.bin"%string, 0x1000, hex "BB")]))
                  flasher_with_image)) !! 0x1000
  = Some (hex "BB").
Proof.
  apply (proj1 (proj2 (load_all
                         [("0x1000.bin"%string, 0x1000, hex "AA");
                          ("0x01000.bin"%string, 0x1000, hex "BB")]
                         flasher_with_image ltac:(discriminate)))
           [("0x1000.bin"%string, 0x1000, hex "AA")] "0x01000.bin"%string 0x1000
           (hex "BB") []);
    [reflexivity|intros []].
Defined.

Section RunWithoutBootloader.

Variable ulong_bits : Z.
Variable qrand : nat -> Z.

(** When the bootloader does not answer, [run] has pulsed the modem lines,
    sent the sync frame three times and reported the failure, and has done
    nothing else: images and progress counter are as before. *)
Theorem run_without_bootloader (s : FlasherImpl) :
  fst (on_port rebootIntoBootloader s) = false ->
  let s' := snd (run ulong_bits qrand s) in
  s' = set_port_ (port_ s') s /\
  w_trace (port_ s')
  = w_trace (port_ s) ++ reboot_into_bootloader_pulse
    ++ concat (repeat (wire sync_frame) 3)
    ++ [EmitDone FailedToTalkToBootloader false].
Proof.
  intros Hboot s'. subst s'. unfold run. rewrite bind_eq, Hboot. cbn [negb].
  rewrite on_port_eq in Hboot |- *. cbn [fst snd] in *.
  destruct (rebootIntoBootloader_trace_aux (port_ s)) as (k & Hk & Htrace & Hfalse).
  rewrite (Hfalse Hboot) in Htrace.
  split; [now destruct s|].
  cbn [emit_signal on_port emit snd port_ set_port_ w_trace].
  rewrite Htrace, <- !app_assoc. reflexivity.
Qed.

End RunWithoutBootloader.

Lemma run_without_bootloader_witness :
  let s := set_port_ (mkWorld [] []) dio_flasher in
  let s' := snd (run 64 no_qrand s) in
  s' = set_port_ (port_ s') s /\
  w_trace (port_ s')
  = w_trace (port_ s) ++ reboot_into_bootloader_pulse
    ++ concat (repeat (wire sync_frame) 3)
    ++ [EmitDone FailedToTalkToBootloader false].
Proof.
  apply (run_without_bootloader 64 no_qrand (set_port_ (mkWorld [] []) dio_flasher)).
  vm_compute. reflexivity.
Defined.

(** ** Writing an image *)

Lemma readResponse_response (cmd status lastError : byte) (rx : list rx_item)
    (w : World) (timeout : Z) :
  w_rx w = response cmd status lastError ++ rx ->
  readResponse timeout w
  = (mkResponse cmd (hex "00000000") [status; lastError] status lastError true,
     mkWorld rx (w_trace w)).
Proof.
  intros Hrx. destruct w as [rx0 trace]. cbn [w_rx w_trace] in *. subst rx0.
  unfold response. now rewrite readResponse_encoded.
Qed.

Section WriteImage.

Variable ulong_bits : Z.
Hypothesis ulong_bits_ge : 32 <= ulong_bits.

Lemma writeFlashStartLocked_eq (addr blocks : Z) (s : FlasherImpl) :
  let frame := command_frame x02
                 (flash_begin_payload ulong_bits (erase_bug_workaround_ s) addr blocks)
                 x00 in
  writeFlashStartLocked ulong_bits addr blocks s
  = (ok (fst (readResponse 30000 (sent frame (port_ s)))),
     set_port_ (snd (readResponse 30000 (sent frame (port_ s)))) s).
Proof.
  intros frame. unfold writeFlashStartLocked.
  rewrite bind_eq. cbn [get fst snd]. rewrite bind_eq, on_port_eq. cbn [fst snd].
  rewrite writeCommand_eq. cbn [snd]. fold (flash_begin_payload ulong_bits
    (erase_bug_workaround_ s) addr blocks). fold frame.
  rewrite bind_eq, on_port_eq. cbn [fst snd port_ set_port_].
  destruct (readResponse 30000 (sent frame (port_ s))) as [resp w2]. cbn [fst snd].
  destruct (ok resp); now destruct s.
Qed.

Lemma writeFlashBlockLocked_eq (seq : Z) (bytes : list byte) (s : FlasherImpl) :
  let frame := command_frame x03
                 (le32 (Z.of_nat (length bytes)) ++ le32 seq ++ le32 0 ++ le32 0
                    ++ bytes) (checksum bytes) in
  writeFlashBlockLocked seq bytes s
  = (ok (fst (readResponse 10000 (sent frame (port_ s)))),
     set_port_ (snd (readResponse 10000 (sent frame (port_ s)))) s).
Proof.
  intros frame. unfold writeFlashBlockLocked.
  rewrite bind_eq, on_port_eq. cbn [fst snd].
  rewrite writeCommand_eq. cbn [snd]. fold frame.
  rewrite bind_eq, on_port_eq. cbn [fst snd port_ set_port_].
  destruct (readResponse 10000 (sent frame (port_ s))) as [resp w2]. cbn [fst snd].
  destruct (ok resp); now destruct s.
Qed.

Lemma rx_emit_signal (e : event) (s : FlasherImpl) :
  w_rx (port_ (snd (emit_signal e s))) = w_rx (port_ s).
Proof. now destruct s. Qed.

Lemma writeFlashLocked_loop_acknowledged (fuel : nat) (addr : Z) (bytes : list byte) :
  Z.of_nat (length bytes) < 2 ^ 31 ->
  forall (start : Z) (s : FlasherImpl) (rx : list rx_item),
    0 <= start ->
    blocks_from (Z.of_nat (length bytes)) start <= Z.of_nat fuel ->
    w_rx (port_ s)
    = concat (repeat (response_ok x03)
                (Z.to_nat (blocks_from (Z.of_nat (length bytes)) start))) ++ rx ->
    fst (writeFlashLocked_loop ulong_bits fuel addr start bytes s) = true /\
    w_rx (port_ (snd (writeFlashLocked_loop ulong_bits fuel addr start bytes s))) = rx.
Proof.
  intros Hlen. induction fuel as [|fuel IH]; intros start s rx Hstart Hfuel Hrx.
  - pose proof (blocks_from_nonneg (Z.of_nat (length bytes)) start).
    replace (blocks_from (Z.of_nat (length bytes)) start) with 0 in Hrx by lia.
    cbn [writeFlashLocked_loop ret fst snd]. now split.
  - cbn [writeFlashLocked_loop].
    destruct (Z.ltb_spec start (Z.of_nat (length bytes))) as [Hlt|Hge]; cbn [negb].
    + rewrite (blocks_from_step _ _ Hlt) in Hrx, Hfuel.
      pose proof (blocks_from_nonneg (Z.of_nat (length bytes)) (start + 1024)) as Hnn.
      replace (Z.to_nat (1 + blocks_from (Z.of_nat (length bytes)) (start + 1024)))
        with (S (Z.to_nat (blocks_from (Z.of_nat (length bytes)) (start + 1024))))
        in Hrx by lia.
      cbn [repeat concat] in Hrx. rewrite <- app_assoc in Hrx.
      rewrite !bind_eq. cbn [fst snd].
      set (s1 := snd (emit_signal _ s)).
      assert (Hrx1 : w_rx (port_ s1) = w_rx (port_ s)) by apply rx_emit_signal.
      rewrite writeFlashBlockLocked_eq. cbv zeta. cbn [fst snd].
      match goal with
      | |- context [readResponse 10000 (sent ?f (port_ s1))] =>
          rewrite (readResponse_response x03 x00 x00 _ (sent f (port_ s1)) 10000)
            by (cbn [sent w_rx]; rewrite Hrx1; exact Hrx)
      end.
      cbn [fst snd]. change (ok _) with true. cbn [negb].
      rewrite !bind_eq. cbn [modify get fst snd].
      rewrite (ulong_in_range ulong_bits) by
        (pose proof (Z.pow_le_mono_r 2 32 ulong_bits ltac:(lia) ulong_bits_ge);
         unfold writeBlockSize; lia).
      unfold writeBlockSize.
      apply IH; [lia|lia|].
      rewrite rx_emit_signal. reflexivity.
    + unfold blocks_from in Hrx.
      destruct (Z.ltb_spec start (Z.of_nat (length bytes))); [lia|].
      cbn [ret fst snd]. now split.
Qed.

(** When the device acknowledges every frame, [writeFlashLocked] succeeds,
    having read exactly one response for the flash_begin frame and one for
    each block of 1024 bytes. *)
Theorem writeFlashLocked_acknowledged (addr : Z) (bytes : list byte)
    (s : FlasherImpl) (rx : list rx_item) :
  Z.of_nat (length bytes) < 2 ^ 31 ->
  w_rx (port_ s)
  = image_written (Z.to_nat (blocks_of (Z.of_nat (length bytes)))) ++ rx ->
  fst (writeFlashLocked ulong_bits addr bytes s) = true /\
  w_rx (port_ (snd (writeFlashLocked ulong_bits addr bytes s))) = rx.
Proof.
  intros Hlen Hrx. unfold image_written in Hrx. rewrite <- app_assoc in Hrx.
  unfold writeFlashLocked. cbv zeta. rewrite !bind_eq. cbn [fst snd].
  set (s1 := snd (emit_signal _ s)).
  assert (Hrx1 : w_rx (port_ s1) = w_rx (port_ s)) by apply rx_emit_signal.
  rewrite writeFlashStartLocked_eq. cbv zeta. cbn [fst snd].
  match goal with
  | |- context [readResponse 30000 (sent ?f (port_ s1))] =>
      rewrite (readResponse_response x02 x00 x00 _ (sent f (port_ s1)) 30000)
        by (cbn [sent w_rx]; rewrite Hrx1; exact Hrx)
  end.
  cbn [fst snd]. change (ok _) with true. cbn [negb].
  assert (Hfrom : blocks_from (Z.of_nat (length bytes)) 0
                  = blocks_of (Z.of_nat (length bytes))).
  { unfold blocks_from. destruct (Z.ltb_spec 0 (Z.of_nat (length bytes))) as [|H0].
    - now rewrite Z.sub_0_r.
    - replace (Z.of_nat (length bytes)) with 0 by lia. reflexivity. }
  pose proof (blocks_of_nonneg (Z.of_nat (length bytes)) ltac:(lia)).
  apply (writeFlashLocked_loop_acknowledged _ addr bytes Hlen 0); rewrite ?Hfrom;
    [lia|lia|reflexivity].
Qed.

(** When the response to flash_begin is not ok, [writeFlashLocked] fails
    after the status message and the flash_begin frame: no block is sent. *)
Theorem writeFlashLocked_refused (addr : Z) (bytes : list byte) (s : FlasherImpl) :
  let len := Z.of_nat (length bytes) in
  let frame := command_frame x02
                 (flash_begin_payload ulong_bits (erase_bug_workaround_ s) addr
                    (ulong ulong_bits
                       (len / writeBlockSize
                        + (if len mod writeBlockSize =? 0 then 0 else 1))))
                 x00 in
  let w1 := sent frame (after [EmitStatusMessage (ErasingFlashAt addr)] (port_ s)) in
  ok (fst (readResponse 30000 w1)) = false ->
  writeFlashLocked ulong_bits addr bytes s
  = (false, set_port_ (snd (readResponse 30000 w1)) s) /\
  w_trace (snd (readResponse 30000 w1))
  = w_trace (port_ s) ++ [EmitStatusMessage (ErasingFlashAt addr)] ++ wire frame.
Proof.
  intros len frame w1 Hok.
  unfold writeFlashLocked. cbv zeta. fold len. rewrite !bind_eq. cbn [fst snd].
  rewrite writeFlashStartLocked_eq. cbv zeta. cbn [fst snd].
  replace (erase_bug_workaround_ (snd (emit_signal (EmitStatusMessage (ErasingFlashAt addr)) s)))
    with (erase_bug_workaround_ s) by now destruct s.
  replace (port_ (snd (emit_signal (EmitStatusMessage (ErasingFlashAt addr)) s)))
    with (after [EmitStatusMessage (ErasingFlashAt addr)] (port_ s))
    by now destruct s.
  fold frame. fold w1. rewrite Hok. cbn [negb ret]. split.
  - f_equal; now destruct s.
  - rewrite readResponse_world. subst w1. unfold sent, after. cbn [w_trace w_rx].
    now rewrite <- app_assoc.
Qed.

End WriteImage.

Lemma writeFlashLocked_acknowledged_witness :
  let s := set_port_ (mkWorld (image_written 2 ++ [RxNone]) []) dio_flasher in
  fst (writeFlashLocked 64 0x1000 (repeat x55 1025) s) = true /\
  w_rx (port_ (snd (writeFlashLocked 64 0x1000 (repeat x55 1025) s))) = [RxNone].
Proof.
  intros s.
  apply (writeFlashLocked_acknowledged 64 ltac:(lia) 0x1000 (repeat x55 1025) s [RxNone]).
  - rewrite repeat_length. lia.
  - rewrite repeat_length. reflexivity.
Defined.

Lemma writeFlashLocked_refused_witness :
  let s := set_port_ (mkWorld (response x02 x01 x06) []) dio_flasher in
  fst (writeFlashLocked 64 0 (hex "E9000240") s) = false.
Proof.
  intros s.
  pose proof (writeFlashLocked_refused 64 0 (hex "E9000240") s
                ltac:(vm_compute; reflexivity)) as [H _].
  now rewrite H.
Defined.

(** ** The final step and the flash params that were written *)

Lemma run_patchBootImage_reads_back (flashParams : Z) (s : FlasherImpl)
    (image0 : list byte) :
  images_ (snd (run_patchBootImage flashParams s)) !! 0 = Some image0 ->
  (4 <= length image0)%nat ->
  nth 0 image0 x00 = xe9 ->
  fst (run_patchBootImage flashParams s)
  = flashParams_of (nth 2 image0 x00) (nth 3 image0 x00).
Proof.
  unfold run_patchBootImage. rewrite bind_eq. cbn [get fst snd].
  destruct (images_ s !! 0) as [image|] eqn:Himage.
  - destruct (Z.geb_spec (Z.of_nat (length image)) 4) as [Hlen|Hlen];
      destruct (Byte.eqb (nth 0 image x00) xe9) eqn:Emagic; cbn [andb].
    + rewrite bind_eq. cbn [modify ret fst snd images_ set_images_].
      rewrite lookup_insert_eq. intros [= <-] _ _. reflexivity.
    + cbn [ret fst snd]. rewrite Himage. intros [= <-] _ Hmagic.
      rewrite Hmagic in Emagic. now vm_compute in Emagic.
    + cbn [ret fst snd]. rewrite Himage. intros [= <-] Hlen' _. lia.
    + cbn [ret fst snd]. rewrite Himage. intros [= <-] Hlen' _. lia.
  - cbn [ret fst snd]. rewrite Himage. discriminate.
Qed.

Section WrittenMode.

Variable ulong_bits : Z.
Variable qrand : nat -> Z.

Lemma run_generateId_boot_image (s : FlasherImpl) :
  images_ (snd (run_generateId ulong_bits qrand s)) !! 0 = images_ s !! 0.
Proof.
  unfold run_generateId. rewrite bind_eq. cbn [get fst snd].
  destruct (generate_id_if_none_found_ s); [|reflexivity].
  rewrite bind_eq.
  pose proof (keeps_findIdLocked ulong_bits s) as Hfind.
  apply port_step_fields in Hfind. destruct Hfind as (Himg & _).
  destruct (findIdLocked ulong_bits s) as [[found|code message] s1];
    cbn [fst snd] in *; rewrite bind_eq.
  - destruct found; cbn [negb modify ret fst snd].
    + now rewrite Himg.
    + cbn [images_ set_images_]. rewrite lookup_insert_ne by discriminate.
      now rewrite Himg.
  - cbn [ret fst snd]. now rewrite images_emit_signal, Himg.
Qed.

Lemma run_writeImages_images (addrs : list Z) (s : FlasherImpl) :
  images_ (snd (run_writeImages ulong_bits addrs s)) = images_ s.
Proof.
  revert s; induction addrs as [|addr addrs IH]; intros s; [reflexivity|].
  cbn [run_writeImages]. rewrite !bind_eq. cbn [get fst snd].
  pose proof (keeps_run_writeImage ulong_bits 3 addr (written_count_ s) s) as Hwrite.
  apply io_step_fields in Hwrite. destruct Hwrite as (Himg & _).
  destruct (run_writeImage ulong_bits 3 addr (written_count_ s) s) as [[] s1];
    cbn [fst snd negb] in *.
  - now rewrite IH.
  - rewrite bind_eq. cbn [ret fst snd]. now rewrite images_emit_signal.
Qed.

(** When all images were written and a boot image was among them, the local
    [flashParams] of [run] is what line 469 reads back from that image. *)
Lemma run_flash_boot_image (s0 s1 : FlasherImpl) (flashParams : Z)
    (image0 : list byte) :
  run_flash ulong_bits qrand s0 = (Some flashParams, s1) ->
  images_ s1 !! 0 = Some image0 ->
  (4 <= length image0)%nat ->
  nth 0 image0 x00 = xe9 ->
  flashParams = flashParams_of (nth 2 image0 x00) (nth 3 image0 x00).
Proof.
  unfold run_flash. rewrite bind_eq.
  destruct (run_flashParams ulong_bits s0) as [[flashParams0|] s]; cbn [fst snd];
    [|discriminate].
  rewrite bind_eq.
  pose proof (run_patchBootImage_reads_back flashParams0 s image0) as Hback.
  destruct (run_patchBootImage flashParams0 s) as [flashParams' s2].
  cbn [fst snd] in *. rewrite bind_eq.
  pose proof (run_generateId_boot_image s2) as Hid.
  destruct (run_generateId ulong_bits qrand s2) as [[] s3]; cbn [fst snd negb] in *;
    [|discriminate].
  rewrite !bind_eq. cbn [modify get fst snd].
  match goal with
  | |- context [run_writeImages ulong_bits ?k ?st] =>
      pose proof (run_writeImages_images k st) as Hwritten;
      destruct (run_writeImages ulong_bits k st) as [[] s4]
  end; cbn [fst snd negb ret] in *; [|discriminate].
  intros [= <- <-] Himage Hlen Hmagic.
  apply Hback; [|exact Hlen|exact Hmagic].
  rewrite <- Hid, <- Himage, Hwritten. now destruct s3.
Qed.

(** C5, where the code departs from it.  After all images have been written,
    boot image among them, the final [switch] of [run] looks at a value read
    back from bytes 2 and 3 of the written boot image through signed [char]s.
    With byte 3 below 0x80 it sees the mode byte that was written, and a
    written mode of 2 (DIO) gives the reboot pulse and no flash_end.  With
    byte 3 at 0x80 or above it sees 0xff whatever was written: a written mode
    of 2 then gets the flash_end frame and no pulse. *)
Theorem run_final_step_written_mode (s s0 s1 : FlasherImpl) (flashParams : Z)
    (image0 : list byte) :
  on_port rebootIntoBootloader s = (true, s0) ->
  run_flash ulong_bits qrand s0 = (Some flashParams, s1) ->
  images_ s1 !! 0 = Some image0 ->
  (4 <= length image0)%nat ->
  nth 0 image0 x00 = xe9 ->
  let written_mode := uchar_to_int (nth 2 image0 x00) in
  let written_low := uchar_to_int (nth 3 image0 x00) in
  (written_low < 128 -> mode_of flashParams = written_mode) /\
  (128 <= written_low -> mode_of flashParams = 0xff) /\
  (written_mode = 2 -> written_low < 128 ->
   run ulong_bits qrand s
   = (tt, set_port_
            (after (reboot_into_firmware_pulse ++ [EmitDone AllDone true]) (port_ s1))
            s1)) /\
  (written_mode = 2 -> 128 <= written_low ->
   exists (left : bool) (s2 : FlasherImpl) (rx' : list rx_item),
     leaveFlashingModeLocked s1 = (left, s2) /\
     port_ s2 = mkWorld rx' (w_trace (port_ s1) ++ wire flash_end_frame) /\
     run ulong_bits qrand s
     = (tt, set_port_
              (after [EmitDone (if left then AllDone else FailedToLeaveFlashingMode) left]
                 (port_ s2))
              s2)).
Proof.
  intros Hboot Hflash Himage Hlen Hmagic written_mode written_low.
  pose proof (run_flash_boot_image _ _ _ _ Hflash Himage Hlen Hmagic) as Hlocal.
  assert (Hlow : written_low < 128 -> mode_of flashParams = written_mode).
  { intros Hlt. rewrite Hlocal. subst written_mode written_low.
    pose proof (forall_bytes2
      (fun p0 p1 =>
         implb (uchar_to_int p1 <? 128)
           (mode_of (flashParams_of p0 p1) =? uchar_to_int p0))
      ltac:(vm_compute; reflexivity) (nth 2 image0 x00) (nth 3 image0 x00)) as H.
    cbv beta in H. apply Z.ltb_lt in Hlt. rewrite Hlt in H. now apply Z.eqb_eq. }
  assert (Hhigh : 128 <= written_low -> mode_of flashParams = 0xff).
  { intros Hge. rewrite Hlocal.
    now apply (flashParams_of_high (nth 2 image0 x00) (nth 3 image0 x00));
      [right|]. }
  rewrite (run_after_flash _ _ _ _ _ _ Hboot Hflash).
  split; [exact Hlow|]. split; [exact Hhigh|]. split.
  - intros Hmode Hlt. apply run_finish_dio. rewrite (Hlow Hlt). exact Hmode.
  - intros _ Hge.
    rewrite (run_finish_flash_end flashParams s1)
      by (rewrite (Hhigh Hge); discriminate).
    rewrite leaveFlashingModeLocked_eq. cbn [fst snd].
    eexists _, _, _. split; [reflexivity|]. split; [|reflexivity].
    cbn [port_ set_port_]. rewrite readResponse_world. reflexivity.
Qed.

End WrittenMode.

Lemma run_final_step_written_mode_witness :
  let s1 := snd (run_flash 64 no_qrand
                   (snd (on_port rebootIntoBootloader dio_high_size_flasher))) in
  images_ s1 !! 0 = Some (hex "E9000290") /\
  (exists (left : bool) (s2 : FlasherImpl) (rx' : list rx_item),
      leaveFlashingModeLocked s1 = (left, s2) /\
      port_ s2 = mkWorld rx' (w_trace (port_ s1) ++ wire flash_end_frame) /\
      run 64 no_qrand dio_high_size_flasher
      = (tt, set_port_
               (after [EmitDone (if left then AllDone else FailedToLeaveFlashingMode)
                         left] (port_ s2))
               s2)) /\
  w_trace (port_ (snd (run 64 no_qrand dio_high_size_flasher)))
  = reboot_into_bootloader_pulse ++ wire sync_frame
    ++ write_image_frames (hex "E9000290")
    ++ wire flash_end_frame ++ [EmitDone AllDone true].
Proof.
  intros s1. split; [vm_compute; reflexivity|]. split.
  - apply (run_final_step_written_mode 64 no_qrand dio_high_size_flasher
             (snd (on_port rebootIntoBootloader dio_high_size_flasher)) s1
             (flashParams_of x02 x90) (hex "E9000290")
             ltac:(vm_compute; reflexivity) ltac:(vm_compute; reflexivity)
             ltac:(vm_compute; reflexivity) ltac:(simpl; lia)
             ltac:(reflexivity));
      [reflexivity|vm_compute; discriminate].
  - vm_compute. reflexivity.
Defined.
